(** * Cluster state controller of the Certificate Transparency log

    A shallow embedding of [cpp/log/cluster_state_controller-inl.h]: the
    controller's fields, its watch callbacks, the serving-STH calculation,
    the election gate and the publisher thread, followed by the properties
    the specification states about them.

    Conventions:
    - [int64_t] values are [Z]; the proto layer only ever hands over
      in-range values and the code does no arithmetic on them;
    - [uint64_t] timestamps are [N];
    - [int] is a 32-bit two's complement integer: every [int] result is
      passed through [Int32.wrap];
    - [double] is IEEE 754 binary64, in the executable specification of
      [SpecFloat] (precision 53, maximal exponent 1024);
    - a [CHECK] that fails ends the process: the operation returns
      [Crashed] with the world as it was at that point. *)

From Stdlib Require Import ZArith NArith List Sorted String Ascii Bool Lia SpecFloat.
Import ListNotations.

Set Implicit Arguments.
Open Scope Z_scope.

(* ------------------------------------------------------------------ *)
(** ** Machine numbers *)

Module Int32.
Definition half_modulus : Z := 2 ^ 31.
Definition modulus : Z := 2 ^ 32.
Definition max_signed : Z := half_modulus - 1.
Definition min_signed : Z := - half_modulus.

(** Conversion of an integer to [int]; identity on the range of [int]. *)
Definition wrap (z : Z) : Z := (z + half_modulus) mod modulus - half_modulus.
End Int32.

Module Double.
Definition prec : Z := 53.
Definition emax : Z := 1024.

Definition t := spec_float.

(** Conversion of an integer to [double], rounding to nearest even. *)
Definition of_Z (z : Z) : t := binary_normalize prec emax z 0 false.
Definition div (x y : t) : t := SFdiv prec emax x y.
(** [x >= y]; false as soon as one side is a NaN. *)
Definition ge (x y : t) : bool := SFleb y x.


Definition zero : t := S754_zero false.
Definition half : t := S754_finite false 4503599627370496 (-53).
End Double.

(* ------------------------------------------------------------------ *)
(** ** Protocol buffer messages *)

(** Modelled from the spec: [proto/ct.pb.h] is not part of the sources.
    [ct::SignedTreeHead] carries a [uint64] timestamp and an [int64]
    tree size; the root hash stands for the fields the controller copies
    but never reads.  [default_sth] is the default-constructed message. *)
Record SignedTreeHead := mkSTH {
  timestamp : N;
  tree_size : Z;
  sha256_root_hash : string
}.

Definition default_sth : SignedTreeHead := mkSTH 0%N 0 EmptyString.

(** Modelled from the spec: [ct::ClusterNodeState] of [proto/ct.pb.h].
    [newest_sth = None] is [has_newest_sth() == false]. *)
Record ClusterNodeState := mkNode {
  node_id : string;
  hostname : string;
  log_port : Z;
  newest_sth : option SignedTreeHead;
  contiguous_tree_size : Z
}.

Definition default_node_state : ClusterNodeState :=
  mkNode EmptyString EmptyString 0 None 0.

(** Modelled from the spec: [ct::ClusterConfig] of [proto/ct.pb.h], an
    [int32] and a [double]. *)
Record ClusterConfig := mkConfig {
  minimum_serving_nodes : Z;
  minimum_serving_fraction : Double.t
}.

Definition default_config : ClusterConfig := mkConfig 0 Double.zero.

(** [Update<T>] of the consistent store: [exists_] and [handle_.Entry()]. *)
Record Update (T : Type) := mkUpdate {
  exists_ : bool;
  entry : T
}.

(* ------------------------------------------------------------------ *)
(** ** [std::map]: association lists kept in strictly increasing key order *)

Section OrdMap.
Variables K V : Type.
Variable cmp : K -> K -> comparison.

Fixpoint find (k : K) (m : list (K * V)) : option V :=
  match m with
  | [] => None
  | (k', v) :: m' =>
      match cmp k k' with
      | Eq => Some v
      | _ => find k m'
      end
  end.

(** [m[k] = f (current entry at k)], inserting at the ordered position
    when the key is new. *)
Fixpoint upsert (k : K) (f : option V -> V) (m : list (K * V)) : list (K * V) :=
  match m with
  | [] => [(k, f None)]
  | (k', v) :: m' =>
      match cmp k k' with
      | Lt => (k, f None) :: m
      | Eq => (k, f (Some v)) :: m'
      | Gt => (k', v) :: upsert k f m'
      end
  end.

(** [m.erase(k)]: the number of entries removed and the new map. *)
Fixpoint erase (k : K) (m : list (K * V)) : Z * list (K * V) :=
  match m with
  | [] => (0, [])
  | (k', v) :: m' =>
      match cmp k k' with
      | Eq => (1, m')
      | _ => let (n, r) := erase k m' in (n, (k', v) :: r)
      end
  end.
End OrdMap.

Definition NodeMap := list (string * ClusterNodeState).
Definition SthMap := list (Z * SignedTreeHead).
Definition CountMap := list (Z * Z).

(** [operator[]] of [std::map]: a missing entry reads as value-initialised. *)
Definition sth_at (m : SthMap) (k : Z) : SignedTreeHead :=
  match find Z.compare k m with Some s => s | None => default_sth end.


(* ------------------------------------------------------------------ *)
(** ** Controller state, collaborators and the world *)

Record Controller := mkController {
  local_node_state_ : ClusterNodeState;
  all_node_states_ : NodeMap;
  cluster_config_ : ClusterConfig;
  actual_serving_sth_ : option SignedTreeHead;
  calculated_serving_sth_ : option SignedTreeHead;
  exiting_ : bool;
  update_required_ : bool
}.

Definition initial_controller : Controller :=
  mkController default_node_state [] default_config None None false false.

Inductive LogLine :=
| WarnStoreStatus
| WarnNoClusterConfig
| InfoReceivedClusterConfig (c : ClusterConfig)
| WarnNoServingSTH
| InfoReceivedServingSTH (sth : SignedTreeHead)
| InfoCanServe (size num_nodes_seen : Z)
| WarnFailedToDetermine
| WarnNoServingSTHLeavingElection
| InfoReplicationBehindLeavingElection.

(** Which thread asked the election whether this node is master. *)
Inductive Asker := FromCalculation | FromUpdater.

(** Calls on the collaborators and on the condition variable, and log
    lines, in the order the controller makes them. *)
Inductive Event :=
| StartElection
| StopElection
| IsMaster (who : Asker) (answer : bool)
| SetClusterNodeState (state : ClusterNodeState)
| SetServingSTH (sth : SignedTreeHead)
| NotifyAll
| Log (line : LogLine).

(** Where the thread running [ClusterServingSTHUpdater] stands: blocked in
    [wait], past [unlock] with its copy of the STH, past an [IsMaster()]
    that returned true, or returned. *)
Inductive UpdaterPc :=
| AtWait
| AtIsMaster (local_sth : SignedTreeHead)
| AtSetServingSTH (local_sth : SignedTreeHead)
| Returned.

(** [trace] holds the most recent event first. *)
Record World := mkWorld {
  csc : Controller;
  updater : UpdaterPc;
  trace : list Event
}.

Definition initial_world : World := mkWorld initial_controller AtWait [].

(** What the collaborators answer during one operation. *)
Record Env := mkEnv {
  election_is_master : bool;
  store_status_ok : bool
}.

(* ------------------------------------------------------------------ *)
(** ** The monad of controller operations *)

Inductive Outcome (A : Type) :=
| Done (a : A) (w : World)
| Crashed (w : World).

Arguments Crashed {A} w.

Definition M (A : Type) := World -> Outcome A.

Definition ret {A} (a : A) : M A := fun w => Done a w.

Definition bind {A B} (m : M A) (k : A -> M B) : M B :=
  fun w => match m w with
           | Done a w' => k a w'
           | Crashed w' => Crashed w'
           end.

Notation "x <- m ;; k" := (bind m (fun x => k))
  (at level 61, m at next level, right associativity).
Notation "m ;; k" := (bind m (fun _ => k))
  (at level 61, right associativity).

Definition get : M Controller := fun w => Done (csc w) w.

Definition modify (f : Controller -> Controller) : M unit :=
  fun w => Done tt (mkWorld (f (csc w)) (updater w) (trace w)).

Definition emit (e : Event) : M unit :=
  fun w => Done tt (mkWorld (csc w) (updater w) (e :: trace w)).

Definition check (b : bool) : M unit :=
  fun w => if b then Done tt w else Crashed w.

Definition when (b : bool) (m : M unit) : M unit :=
  if b then m else ret tt.

Definition ask_is_master (who : Asker) (env : Env) : M bool :=
  emit (IsMaster who (election_is_master env)) ;; ret (election_is_master env).

(** Field updates. *)
Definition set_local_node_state (s : ClusterNodeState) (c : Controller) :=
  mkController s (all_node_states_ c) (cluster_config_ c)
    (actual_serving_sth_ c) (calculated_serving_sth_ c)
    (exiting_ c) (update_required_ c).

Definition set_all_node_states (m : NodeMap) (c : Controller) :=
  mkController (local_node_state_ c) m (cluster_config_ c)
    (actual_serving_sth_ c) (calculated_serving_sth_ c)
    (exiting_ c) (update_required_ c).

Definition set_cluster_config (cfg : ClusterConfig) (c : Controller) :=
  mkController (local_node_state_ c) (all_node_states_ c) cfg
    (actual_serving_sth_ c) (calculated_serving_sth_ c)
    (exiting_ c) (update_required_ c).

Definition set_actual_serving_sth (s : option SignedTreeHead) (c : Controller) :=
  mkController (local_node_state_ c) (all_node_states_ c) (cluster_config_ c)
    s (calculated_serving_sth_ c) (exiting_ c) (update_required_ c).

Definition set_calculated_serving_sth (s : option SignedTreeHead) (c : Controller) :=
  mkController (local_node_state_ c) (all_node_states_ c) (cluster_config_ c)
    (actual_serving_sth_ c) s (exiting_ c) (update_required_ c).

Definition set_exiting (b : bool) (c : Controller) :=
  mkController (local_node_state_ c) (all_node_states_ c) (cluster_config_ c)
    (actual_serving_sth_ c) (calculated_serving_sth_ c) b (update_required_ c).

Definition set_update_required (b : bool) (c : Controller) :=
  mkController (local_node_state_ c) (all_node_states_ c) (cluster_config_ c)
    (actual_serving_sth_ c) (calculated_serving_sth_ c) (exiting_ c) b.

Definition set_updater (pc : UpdaterPc) : M unit :=
  fun w => Done tt (mkWorld (csc w) pc (trace w)).

(* ------------------------------------------------------------------ *)
(** ** [DetermineElectionParticipation] *)

Definition DetermineElectionParticipation : M unit :=
  c <- get ;;
  match actual_serving_sth_ c with
  | None =>
      emit (Log WarnNoServingSTHLeavingElection) ;;
      emit StopElection
  | Some sth =>
      if tree_size sth >? contiguous_tree_size (local_node_state_ c) then
        emit (Log InfoReplicationBehindLeavingElection) ;;
        emit StopElection
      else
        emit StartElection
  end.

(* ------------------------------------------------------------------ *)
(** ** Local mutators: [PushLocalNodeState], [NewTreeHead],
       [ContiguousTreeSizeUpdated], [SetNodeHostPort] *)

Definition PushLocalNodeState (env : Env) : M unit :=
  DetermineElectionParticipation ;;
  c <- get ;;
  emit (SetClusterNodeState (local_node_state_ c)) ;;
  when (negb (store_status_ok env)) (emit (Log WarnStoreStatus)).

Definition with_newest_sth (sth : SignedTreeHead) (s : ClusterNodeState) :=
  mkNode (node_id s) (hostname s) (log_port s) (Some sth) (contiguous_tree_size s).

Definition with_contiguous_tree_size (n : Z) (s : ClusterNodeState) :=
  mkNode (node_id s) (hostname s) (log_port s) (newest_sth s) n.

Definition with_host_port (host : string) (port : Z) (s : ClusterNodeState) :=
  mkNode (node_id s) host port (newest_sth s) (contiguous_tree_size s).

Definition NewTreeHead (env : Env) (sth : SignedTreeHead) : M unit :=
  c <- get ;;
  match newest_sth (local_node_state_ c) with
  | Some prev => check (timestamp prev <=? timestamp sth)%N
  | None => ret tt
  end ;;
  modify (fun c => set_local_node_state (with_newest_sth sth (local_node_state_ c)) c) ;;
  PushLocalNodeState env.

Definition ContiguousTreeSizeUpdated (env : Env) (new_contiguous_tree_size : Z) : M unit :=
  check (0 <=? new_contiguous_tree_size) ;;
  c <- get ;;
  check (contiguous_tree_size (local_node_state_ c) <=? new_contiguous_tree_size) ;;
  modify (fun c => set_local_node_state
                     (with_contiguous_tree_size new_contiguous_tree_size
                        (local_node_state_ c)) c) ;;
  PushLocalNodeState env.

Definition SetNodeHostPort (env : Env) (host : string) (port : Z) : M unit :=
  modify (fun c => set_local_node_state
                     (with_host_port host port (local_node_state_ c)) c) ;;
  PushLocalNodeState env.

(** [GetCalculatedServingSTH]: [None] is the [NOT_FOUND] status. *)
Definition GetCalculatedServingSTH (c : Controller) : option SignedTreeHead :=
  calculated_serving_sth_ c.

Definition GetLocalNodeState (c : Controller) : ClusterNodeState :=
  local_node_state_ c.

(* ------------------------------------------------------------------ *)
(** ** [CalculateServingSTH] *)

(** [num_nodes_by_sth_size[size]++] on the current entry, an [int] that
    [operator[]] creates as 0. *)
Definition increment (o : option Z) : Z :=
  Int32.wrap (match o with Some n => n | None => 0 end + 1).

(** [if (sth.timestamp() > sth_by_size[size].timestamp())
     sth_by_size[size] = sth] on the current entry, which [operator[]]
    creates default-constructed. *)
Definition keep_newest (sth : SignedTreeHead) (o : option SignedTreeHead)
  : SignedTreeHead :=
  let cur := match o with Some s => s | None => default_sth end in
  if (timestamp cur <? timestamp sth)%N then sth else cur.

(** Body of the first loop for one node.  [None] is a failed
    [CHECK_LE(0, tree_size)]. *)
Definition tally_node (node : ClusterNodeState) (maps : SthMap * CountMap)
  : option (SthMap * CountMap) :=
  match newest_sth node with
  | None => Some maps
  | Some sth =>
      let size := tree_size sth in
      if 0 <=? size then
        let counts := upsert Z.compare size increment (snd maps) in
        let sths := upsert Z.compare size (keep_newest sth) (fst maps) in
        Some (sths, counts)
      else None
  end.

Fixpoint tally (nodes : NodeMap) (maps : SthMap * CountMap)
  : option (SthMap * CountMap) :=
  match nodes with
  | [] => Some maps
  | (_, node) :: rest =>
      match tally_node node maps with
      | Some maps' => tally rest maps'
      | None => None
      end
  end.

(** The quorum test of the second loop at [num_nodes_seen] nodes out of
    [cluster_size]. *)
Definition can_serve (cfg : ClusterConfig) (cluster_size : nat) (num_nodes_seen : Z) : bool :=
  let serving_fraction :=
    Double.div (Double.of_Z num_nodes_seen) (Double.of_Z (Z.of_nat cluster_size)) in
  Double.ge serving_fraction (minimum_serving_fraction cfg)
  && (num_nodes_seen >=? minimum_serving_nodes cfg).

(** The second loop, over the sizes from the largest down while they are
    at least [current_tree_size]; the result is the size it stops at with
    the number of nodes seen by then. *)
Fixpoint scan (cfg : ClusterConfig) (cluster_size : nat) (current_tree_size : Z)
         (num_nodes_seen : Z) (descending : list (Z * Z)) : option (Z * Z) :=
  match descending with
  | [] => None
  | (size, n) :: rest =>
      if size >=? current_tree_size then
        let num_nodes_seen := Int32.wrap (num_nodes_seen + n) in
        if can_serve cfg cluster_size num_nodes_seen
        then Some (size, num_nodes_seen)
        else scan cfg cluster_size current_tree_size num_nodes_seen rest
      else None
  end.

(** The [VLOG(1)] line and [CHECK(lock.owns_lock())] are left out: every
    caller holds the mutex. *)
Definition CalculateServingSTH (env : Env) : M unit :=
  c <- get ;;
  match tally (all_node_states_ c) ([], []) with
  | None => check false
  | Some (sth_by_size, num_nodes_by_sth_size) =>
      let current_tree_size :=
        Int32.wrap (match calculated_serving_sth_ c with
                    | Some s => tree_size s
                    | None => 0
                    end) in
      check (0 <=? current_tree_size) ;;
      match scan (cluster_config_ c) (List.length (all_node_states_ c))
                 current_tree_size 0 (rev num_nodes_by_sth_size) with
      | Some (size, num_nodes_seen) =>
          emit (Log (InfoCanServe size num_nodes_seen)) ;;
          modify (set_calculated_serving_sth (Some (sth_at sth_by_size size))) ;;
          is_master <- ask_is_master FromCalculation env ;;
          when is_master
            (modify (set_update_required true) ;; emit NotifyAll)
      | None => emit (Log WarnFailedToDetermine)
      end
  end.

(* ------------------------------------------------------------------ *)
(** ** Watch callbacks *)

Fixpoint apply_updates (updates : list (Update ClusterNodeState)) : M unit :=
  match updates with
  | [] => ret tt
  | update :: rest =>
      let id := node_id (entry update) in
      (if exists_ update then
         modify (fun c => set_all_node_states
                            (upsert String.compare id (fun _ => entry update)
                               (all_node_states_ c)) c)
       else
         c <- get ;;
         let (erased, m) := erase String.compare id (all_node_states_ c) in
         modify (set_all_node_states m) ;;
         check (erased =? 1)) ;;
      apply_updates rest
  end.

Definition OnClusterStateUpdated (env : Env)
           (updates : list (Update ClusterNodeState)) : M unit :=
  apply_updates updates ;;
  CalculateServingSTH env.

Definition OnClusterConfigUpdated (env : Env) (update : Update ClusterConfig) : M unit :=
  if exists_ update then
    modify (set_cluster_config (entry update)) ;;
    emit (Log (InfoReceivedClusterConfig (entry update))) ;;
    CalculateServingSTH env
  else
    emit (Log WarnNoClusterConfig).

Definition OnServingSthUpdated (update : Update SignedTreeHead) : M unit :=
  (if exists_ update then
     modify (set_actual_serving_sth (Some (entry update))) ;;
     emit (Log (InfoReceivedServingSTH (entry update)))
   else
     emit (Log WarnNoServingSTH) ;;
     modify (set_actual_serving_sth None)) ;;
  DetermineElectionParticipation.

(* ------------------------------------------------------------------ *)
(** ** The publisher thread and the destructor *)

(** One step of the thread running [ClusterServingSTHUpdater].  The part
    under the mutex is one step; [IsMaster()] and [SetServingSTH] come
    after [unlock] and are a step each, so that calls of other threads
    may fall between them. *)
Definition ClusterServingSTHUpdater_step (env : Env) : M unit :=
  fun w =>
    match updater w with
    | AtWait =>
        let c := csc w in
        if update_required_ c || exiting_ c then
          if exiting_ c then set_updater Returned w
          else
            (check (update_required_ c) ;;
             match calculated_serving_sth_ c with
             | None => check false
             | Some local_sth =>
                 modify (set_update_required false) ;;
                 set_updater (AtIsMaster local_sth)
             end) w
        else Done tt w
    | AtIsMaster local_sth =>
        (is_master <- ask_is_master FromUpdater env ;;
         set_updater (if is_master then AtSetServingSTH local_sth else AtWait)) w
    | AtSetServingSTH local_sth =>
        (emit (SetServingSTH local_sth) ;; set_updater AtWait) w
    | Returned => Done tt w
    end.

(** The destructor up to the point where it joins the publisher thread. *)
Definition Destructor_signal_exit : M unit :=
  modify (set_exiting true) ;;
  emit NotifyAll.

(* ------------------------------------------------------------------ *)
(** ** Runs of the controller *)

Inductive Call :=
| CallNewTreeHead (sth : SignedTreeHead)
| CallContiguousTreeSizeUpdated (new_contiguous_tree_size : Z)
| CallSetNodeHostPort (host : string) (port : Z)
| CallOnClusterStateUpdated (updates : list (Update ClusterNodeState))
| CallOnClusterConfigUpdated (update : Update ClusterConfig)
| CallOnServingSthUpdated (update : Update SignedTreeHead)
| CallUpdaterStep
| CallDestructor.

Definition run_call (env : Env) (call : Call) : M unit :=
  match call with
  | CallNewTreeHead sth => NewTreeHead env sth
  | CallContiguousTreeSizeUpdated n => ContiguousTreeSizeUpdated env n
  | CallSetNodeHostPort host port => SetNodeHostPort env host port
  | CallOnClusterStateUpdated updates => OnClusterStateUpdated env updates
  | CallOnClusterConfigUpdated update => OnClusterConfigUpdated env update
  | CallOnServingSthUpdated update => OnServingSthUpdated update
  | CallUpdaterStep => ClusterServingSTHUpdater_step env
  | CallDestructor => Destructor_signal_exit
  end.

Fixpoint run (calls : list (Env * Call)) : M unit :=
  match calls with
  | [] => ret tt
  | (env, call) :: rest => run_call env call ;; run rest
  end.

(* ------------------------------------------------------------------ *)
(** ** Vocabulary of the properties *)

(** The world an operation leaves behind, whether it returned or died. *)
Definition final {A} (o : Outcome A) : World :=
  match o with
  | Done _ w => w
  | Crashed w => w
  end.

(** The events added to the trace between [w] and a later [w'], most
    recent first. *)
Definition emitted (w w' : World) : list Event :=
  firstn (List.length (trace w') - List.length (trace w)) (trace w').

(** The node has a newest STH, of a tree size for which [p] holds. *)
Definition has_sth_where (p : Z -> bool) (node : string * ClusterNodeState) : bool :=
  match newest_sth (snd node) with
  | Some sth => p (tree_size sth)
  | None => false
  end.

(** Number of peers whose newest STH has a tree size for which [p] holds. *)
Definition peers_where (p : Z -> bool) (nodes : NodeMap) : Z :=
  Z.of_nat (List.length (filter (has_sth_where p) nodes)).

Definition peers_at_least (s : Z) (nodes : NodeMap) : Z :=
  peers_where (fun size => s <=? size) nodes.

(** [peer_sth nodes sth]: some peer's newest STH is [sth]. *)
Definition peer_sth (nodes : NodeMap) (sth : SignedTreeHead) : Prop :=
  exists id node, In (id, node) nodes /\ newest_sth node = Some sth.

(** What one run of [CalculateServingSTH] decides, as a function of the
    controller's fields. *)
Inductive Calculation :=
| CalcAbort
| CalcNoQuorum
| CalcServe (size num_nodes_seen : Z) (sth : SignedTreeHead).

Definition calculation (c : Controller) : Calculation :=
  match tally (all_node_states_ c) ([], []) with
  | None => CalcAbort
  | Some (sth_by_size, num_nodes_by_sth_size) =>
      let current_tree_size :=
        Int32.wrap (match calculated_serving_sth_ c with
                    | Some s => tree_size s
                    | None => 0
                    end) in
      if 0 <=? current_tree_size then
        match scan (cluster_config_ c) (List.length (all_node_states_ c))
                   current_tree_size 0 (rev num_nodes_by_sth_size) with
        | Some (size, num_nodes_seen) =>
            CalcServe size num_nodes_seen (sth_at sth_by_size size)
        | None => CalcNoQuorum
        end
      else CalcAbort
  end.

(** [CalculateServingSTH] run from [w] assigns [calculated_serving_sth_]
    at size [s] and ends in [w']: it returns, having logged that it can
    serve at [s]. *)
Definition assigns_at (env : Env) (w : World) (s : Z) (w' : World) : Prop :=
  CalculateServingSTH env w = Done tt w' /\
  exists n, In (Log (InfoCanServe s n)) (emitted w w').

(** Events of the publisher thread. *)
Definition updater_event (e : Event) : bool :=
  match e with
  | IsMaster FromUpdater _ => true
  | SetServingSTH _ => true
  | _ => false
  end.

(** On the publisher thread's own events, most recent first: each
    [SetServingSTH] comes directly after an [IsMaster()] that returned
    true. *)
Fixpoint gated (updater_events : list Event) : bool :=
  match updater_events with
  | [] => true
  | SetServingSTH _ :: rest =>
      match rest with
      | IsMaster FromUpdater true :: _ => gated rest
      | _ => false
      end
  | _ :: rest => gated rest
  end.

Definition publisher_gated (tr : list Event) : bool :=
  gated (filter updater_event tr).

Definition election_call (e : Event) : bool :=
  match e with
  | StartElection | StopElection => true
  | _ => false
  end.

(** The calls and log lines of the election gate, most recent first. *)
Definition gate_events (c : Controller) : list Event :=
  match actual_serving_sth_ c with
  | None => [StopElection; Log WarnNoServingSTHLeavingElection]
  | Some sth =>
      if tree_size sth >? contiguous_tree_size (local_node_state_ c)
      then [StopElection; Log InfoReplicationBehindLeavingElection]
      else [StartElection]
  end.

(** The events of publishing the local node state, most recent first:
    the election gate, the write to the store, and the warning when the
    store reports a failure. *)
Definition push_events (env : Env) (c : Controller) : list Event :=
  (if store_status_ok env then [] else [Log WarnStoreStatus])
    ++ SetClusterNodeState (local_node_state_ c) :: gate_events c.

(** [NewTreeHead]'s contract is broken: a newest STH is recorded and the
    new one has a smaller timestamp. *)
Definition older_than_newest (sth : SignedTreeHead) (c : Controller) : bool :=
  match newest_sth (local_node_state_ c) with
  | Some prev => (timestamp sth <? timestamp prev)%N
  | None => false
  end.

(** A run of [CalculateServingSTH] from [w] raises no new signal: it
    leaves [update_required_] as it was and does not notify the
    condition variable. *)
Definition no_new_signal (env : Env) (w : World) : Prop :=
  forall w', CalculateServingSTH env w = Done tt w' ->
             update_required_ (csc w') = update_required_ (csc w) /\
             ~ In NotifyAll (emitted w w').


(** Strictly increasing keys. *)
Definition sorted {V} (m : list (Z * V)) : Prop :=
  StronglySorted (fun a b => fst a < fst b) m.

Definition descending {V} (m : list (Z * V)) : Prop :=
  StronglySorted (fun a b => fst b < fst a) m.

(** Sum of the counts stored under the keys for which [p] holds. *)
Fixpoint total (p : Z -> bool) (m : CountMap) : Z :=
  match m with
  | [] => 0
  | (k, n) :: rest => (if p k then n else 0) + total p rest
  end.

(* ------------------------------------------------------------------ *)
(** ** Scenarios of the specification *)

Definition master : Env := mkEnv true true.
Definition follower : Env := mkEnv false true.

Definition peer (id : string) (sth : option SignedTreeHead) : ClusterNodeState :=
  mkNode id EmptyString 0 sth 0.

Definition present {T} (x : T) : Update T := mkUpdate true x.
Definition absent {T} (x : T) : Update T := mkUpdate false x.

Definition sth_A : SignedTreeHead := mkSTH 100 10 "root of A".
Definition sth_B : SignedTreeHead := mkSTH 110 10 "root of B".
Definition sth_C : SignedTreeHead := mkSTH 90 7 "root of C".

Definition config_2_half : ClusterConfig := mkConfig 2 Double.half.

(** S1: peers A, B, C and D. *)
Definition S1_batch : list (Update ClusterNodeState) :=
  [ present (peer "A" (Some sth_A)); present (peer "B" (Some sth_B));
    present (peer "C" (Some sth_C)); present (peer "D" None) ].

Definition S1_nodes : NodeMap :=
  [ ("A"%string, peer "A" (Some sth_A)); ("B"%string, peer "B" (Some sth_B));
    ("C"%string, peer "C" (Some sth_C)); ("D"%string, peer "D" None) ].

(** S3: peer B has left. *)
Definition S3_nodes : NodeMap :=
  [ ("A"%string, peer "A" (Some sth_A));
    ("C"%string, peer "C" (Some sth_C)); ("D"%string, peer "D" None) ].

(** S5: the node is master, learns the configuration and the peers of S1,
    and its publisher thread wakes up, asks the election and writes. *)
Definition S5_calls : list (Env * Call) :=
  [ (master, CallOnClusterConfigUpdated (present config_2_half));
    (master, CallOnClusterStateUpdated S1_batch);
    (master, CallUpdaterStep); (master, CallUpdaterStep);
    (master, CallUpdaterStep) ].

Definition S5_published : World := final (run S5_calls initial_world).

(** A single peer whose STH at size 5 carries timestamp 0. *)
Definition sth_zero_timestamp : SignedTreeHead := mkSTH 0 5 "root at 5".


Definition zero_timestamp_world : World :=
  mkWorld (set_all_node_states
             [("A"%string, peer "A" (Some sth_zero_timestamp))]
             initial_controller) AtWait [].


(** S3 through the watch callbacks: the configuration and the peers of S1
    arrive while the node is not master, then B's entry is deleted. *)
Definition S1_calls : list (Env * Call) :=
  [ (follower, CallOnClusterConfigUpdated (present config_2_half));
    (follower, CallOnClusterStateUpdated S1_batch) ].

Definition S1_calculated : World := final (run S1_calls initial_world).

Definition B_leaves : list (Update ClusterNodeState) :=
  [ absent (peer "B" None) ].

Definition with_nodes_config_calculated
           (nodes : NodeMap) (cfg : ClusterConfig)
           (calculated : option SignedTreeHead) (w : World) : World :=
  mkWorld
    (set_calculated_serving_sth calculated
       (set_cluster_config cfg (set_all_node_states nodes (csc w))))
    (updater w) (trace w).

(* ------------------------------------------------------------------ *)
(** ** Invariants of the two loops *)

(** [counts_of seen m]: [m] is [num_nodes_by_sth_size] after the first
    loop has gone through the nodes [seen]. *)
Definition counts_of (seen : NodeMap) (m : CountMap) : Prop :=
  sorted m /\
  Forall (fun b => 1 <= snd b) m /\
  Forall (fun b => 0 <= fst b) m /\
  forall p, total p m = peers_where p seen.

(** [sths_of seen m]: [m] is [sth_by_size] after the first loop has gone
    through the nodes [seen].  An entry is still the default-constructed
    one, or it is the STH of a peer at that size with a positive
    timestamp; no peer at that size has a larger timestamp. *)
Definition sths_of (seen : NodeMap) (m : SthMap) : Prop :=
  sorted m /\
  (forall k, sth_at m k = default_sth \/
             (peer_sth seen (sth_at m k) /\ tree_size (sth_at m k) = k /\
              (0 < timestamp (sth_at m k))%N)) /\
  (forall sth, peer_sth seen sth ->
               (timestamp sth <= timestamp (sth_at m (tree_size sth)))%N).

(* ------------------------------------------------------------------ *)
(** ** The world a serving calculation leaves *)

Definition served (env : Env) (size n : Z) (sth : SignedTreeHead) (w : World) : World :=
  let c := set_calculated_serving_sth (Some sth) (csc w) in
  let tr := IsMaster FromCalculation (election_is_master env)
              :: Log (InfoCanServe size n) :: trace w in
  if election_is_master env
  then mkWorld (set_update_required true c) (updater w) (NotifyAll :: tr)
  else mkWorld c (updater w) tr.

(* ------------------------------------------------------------------ *)
(** ** Invariants of operations and of the publisher thread *)

(** [preserves I m]: if [I] holds of the world [m] starts in, it holds of
    the world [m] ends in, whether [m] returns or dies. *)
Definition preserves {A} (I : World -> Prop) (m : M A) : Prop :=
  forall w, I w -> I (final (m w)).

(** What the publisher thread has done and where it stands. *)
Definition publisher_at (pc : UpdaterPc) (events : list Event) (w : World) : Prop :=
  updater w = pc /\ filter updater_event (trace w) = events.

(** [foreign m]: [m] runs on another thread than the publisher's; it
    neither moves the publisher nor adds to its events. *)
Definition foreign {A} (m : M A) : Prop :=
  forall pc events, preserves (publisher_at pc events) m.

(** The invariant behind publisher gating: the publisher's events are
    gated, and while the publisher stands before [SetServingSTH] its
    latest event is an [IsMaster()] that returned true. *)
Definition gating_invariant (w : World) : Prop :=
  publisher_gated (trace w) = true /\
  forall sth, updater w = AtSetServingSTH sth ->
              exists rest,
                filter updater_event (trace w)
                = IsMaster FromUpdater true :: rest.

(* ------------------------------------------------------------------ *)
(** ** Before any configuration and any peer STH has arrived *)




(** A run in which first a missing configuration is reported and a peer
    without STH appears, before the batch of S1 arrives. *)
Definition cold_calls : list (Env * Call) :=
  [ (follower, CallOnClusterConfigUpdated (absent default_config));
    (follower, CallOnClusterStateUpdated [present (peer "D" None)]);
    (follower, CallOnServingSthUpdated (absent default_sth)) ].

Definition cold_world : World := final (run cold_calls initial_world).

(* ------------------------------------------------------------------ *)
(** ** Runs in which the calculated size goes down *)

Definition config_1_half : ClusterConfig := mkConfig 1 Double.half.

(** A log of 2^32 + 5 entries, and a peer that lags at 7. *)
Definition sth_large : SignedTreeHead := mkSTH 100 4294967301 "root at 2^32+5".
Definition sth_lagging : SignedTreeHead := mkSTH 50 7 "root at 7".

Definition large_calls : list (Env * Call) :=
  [ (master, CallOnClusterConfigUpdated (present config_1_half));
    (master, CallOnClusterStateUpdated [present (peer "A" (Some sth_large))]) ].

Definition lagging_calls : list (Env * Call) :=
  [ (master, CallOnClusterStateUpdated
               [absent (peer "A" None); present (peer "B" (Some sth_lagging))]) ].

(** A peer at size 10 whose next STH, at size 12, has timestamp 0. *)
Definition sth_unstamped : SignedTreeHead := mkSTH 0 12 "root at 12".

Definition stamped_calls : list (Env * Call) :=
  [ (master, CallOnClusterConfigUpdated (present config_1_half));
    (master, CallOnClusterStateUpdated [present (peer "A" (Some sth_A))]) ].

Definition unstamped_calls : list (Env * Call) :=
  [ (master, CallOnClusterStateUpdated [present (peer "A" (Some sth_unstamped))]) ].

(* ------------------------------------------------------------------ *)
(** ** Ways the controller's fields change *)

(** The writes the code makes to the controller's fields. *)
Inductive Kind :=
| KLocal        (* [local_node_state_] *)
| KPeers        (* [all_node_states_] *)
| KConfig       (* [cluster_config_] *)
| KActual       (* [actual_serving_sth_] *)
| KCalculated   (* [calculated_serving_sth_] *)
| KSignal       (* [update_required_ = true] *)
| KTaken        (* [update_required_ = false] *)
| KExiting.     (* [exiting_ = true] *)

(** [change k c c']: one write of kind [k] takes the fields [c] to [c'],
    under the condition the code has established when it makes it. *)
Inductive change : Kind -> Controller -> Controller -> Prop :=
| change_newest_sth c sth :
    older_than_newest sth c = false ->
    change KLocal c
      (set_local_node_state (with_newest_sth sth (local_node_state_ c)) c)
| change_contiguous c n :
    0 <= n -> contiguous_tree_size (local_node_state_ c) <= n ->
    change KLocal c
      (set_local_node_state
         (with_contiguous_tree_size n (local_node_state_ c)) c)
| change_host_port c host port :
    change KLocal c
      (set_local_node_state (with_host_port host port (local_node_state_ c)) c)
| change_peer_put c node :
    change KPeers c
      (set_all_node_states
         (upsert String.compare (node_id node) (fun _ => node)
            (all_node_states_ c)) c)
| change_peer_erase c id :
    change KPeers c
      (set_all_node_states
         (snd (erase String.compare id (all_node_states_ c))) c)
| change_config c cfg :
    change KConfig c (set_cluster_config cfg c)
| change_actual c o :
    change KActual c (set_actual_serving_sth o c)
| change_calculated c sth :
    change KCalculated c (set_calculated_serving_sth (Some sth) c)
| change_signal c :
    calculated_serving_sth_ c <> None ->
    change KSignal c (set_update_required true c)
| change_taken c :
    change KTaken c (set_update_required false c)
| change_exiting c :
    change KExiting c (set_exiting true c).

(** A sequence of writes, each of a kind that [may] allows. *)
Inductive changes (may : Kind -> bool) : Controller -> Controller -> Prop :=
| changes_none c : changes may c c
| changes_more c c1 c2 k :
    changes may c c1 -> may k = true -> change k c1 c2 -> changes may c c2.

(** The kinds of write an entry point makes, given what the election
    answers. *)
Definition may_change (env : Env) (call : Call) (k : Kind) : bool :=
  match call, k with
  | CallNewTreeHead _, KLocal => true
  | CallContiguousTreeSizeUpdated _, KLocal => true
  | CallSetNodeHostPort _ _, KLocal => true
  | CallOnClusterStateUpdated _, KPeers => true
  | CallOnClusterStateUpdated _, KCalculated => true
  | CallOnClusterStateUpdated _, KSignal => election_is_master env
  | CallOnClusterConfigUpdated update, KConfig => exists_ update
  | CallOnClusterConfigUpdated update, KCalculated => exists_ update
  | CallOnClusterConfigUpdated update, KSignal =>
      exists_ update && election_is_master env
  | CallOnServingSthUpdated _, KActual => true
  | CallUpdaterStep, KTaken => true
  | CallDestructor, KExiting => true
  | _, _ => false
  end.

Definition any_kind (k : Kind) : bool := true.

(** [changes] of kinds [may] starting from [c0] lead to the fields of the
    world. *)
Definition reached (may : Kind -> bool) (c0 : Controller) (w : World) : Prop :=
  changes may c0 (csc w).

(* ------------------------------------------------------------------ *)
(** ** Vocabulary of the invariants over runs *)

(** Whenever an update is pending, there is a calculated STH to publish. *)
Definition pending_has_sth (c : Controller) : Prop :=
  update_required_ c = true -> calculated_serving_sth_ c <> None.

(** The publisher thread is blocked in [wait] or has returned. *)
Definition publisher_idle (w : World) : Prop :=
  updater w = AtWait \/ updater w = Returned.

Definition is_updater_step (call : Env * Call) : bool :=
  match snd call with
  | CallUpdaterStep => true
  | _ => false
  end.

Definition not_master (call : Env * Call) : bool :=
  negb (election_is_master (fst call)).

(** A waiting publisher, a pending update and a calculated STH; then
    another batch replaces that STH before the publisher gets to write. *)
Definition sth_newer : SignedTreeHead := mkSTH 120 11 "root at 11".

Definition S5_signalled : World :=
  final (run [ (master, CallOnClusterConfigUpdated (present config_2_half));
               (master, CallOnClusterStateUpdated S1_batch) ] initial_world).

Definition newer_batch : list (Env * Call) :=
  [ (master, CallOnClusterStateUpdated
               [ present (peer "A" (Some sth_newer));
                 present (peer "B" (Some sth_newer)) ]) ].

(** The destructor has signalled exit while an update is pending. *)
Definition S6_exiting : World :=
  final (run [ (master, CallDestructor) ] S5_signalled).

(* ------------------------------------------------------------------ *)
(** ** Vocabulary of the calculation's edge cases *)

(** [current_tree_size] of [CalculateServingSTH]: the calculated tree size
    (0 when there is none) converted to [int]. *)
Definition current_tree_size (c : Controller) : Z :=
  Int32.wrap (match calculated_serving_sth_ c with
              | Some s => tree_size s
              | None => 0
              end).

(** [CalculateServingSTH] run from [w] finds no size to serve and ends in
    [w']: it returns, having logged the warning. *)
Definition finds_no_quorum (env : Env) (w w' : World) : Prop :=
  CalculateServingSTH env w = Done tt w' /\
  In (Log WarnFailedToDetermine) (emitted w w').

(** S2: the peers of S1 under a configuration that asks for three nodes. *)
Definition config_3_half : ClusterConfig := mkConfig 3 Double.half.

Definition S2_world : World :=
  with_nodes_config_calculated S1_nodes config_3_half None initial_world.

(** S3: the state in which the monotonicity guard finds no quorum. *)
Definition S3_world : World :=
  with_nodes_config_calculated S3_nodes config_2_half (Some sth_B) initial_world.

(** A log of 2^31 entries, served by its only node. *)
Definition sth_2_31 : SignedTreeHead := mkSTH 100 2147483648 "root at 2^31".

Definition beyond_int_world : World :=
  final (run [ (master, CallOnClusterConfigUpdated (present config_1_half));
               (master, CallOnClusterStateUpdated
                          [present (peer "A" (Some sth_2_31))]) ]
           initial_world).

(* ------------------------------------------------------------------ *)
(** ** Vocabulary of the peer map *)

(** Strictly increasing keys in the order [cmp]: at most one entry per
    key. *)
Definition key_sorted {K V} (cmp : K -> K -> comparison) (m : list (K * V)) : Prop :=
  StronglySorted (fun a b => cmp (fst a) (fst b) = Lt) m.

(** The peer map is ordered by node id without repetition, and each entry
    is kept under its own [node_id]. *)
Definition node_map_ok (m : NodeMap) : Prop :=
  key_sorted String.compare m /\
  Forall (fun kv => node_id (snd kv) = fst kv) m.

(** What one update of a batch means for the entry of node [id]. *)
Definition update_lookup (id : string) (before : option ClusterNodeState)
           (update : Update ClusterNodeState) : option ClusterNodeState :=
  if String.eqb (node_id (entry update)) id
  then (if exists_ update then Some (entry update) else None)
  else before.

(** A batch in which C's entry is replaced twice and B's is deleted. *)
Definition sth_C_next : SignedTreeHead := mkSTH 95 8 "root at 8".
Definition sth_C_last : SignedTreeHead := mkSTH 99 9 "root at 9".

Definition mixed_batch : list (Update ClusterNodeState) :=
  [ present (peer "C" (Some sth_C_next)); absent (peer "B" None);
    present (peer "E" None); present (peer "C" (Some sth_C_last)) ].

(** A batch whose first update deletes a node that is not there. *)
Definition unknown_removal_batch : list (Update ClusterNodeState) :=
  [ absent (peer "Z" None); present (peer "E" None) ].

(* ------------------------------------------------------------------ *)
(** ** Vocabulary of the entry points' effects *)

(** The election gate lets the node take part: a serving STH is known and
    it is not beyond the local contiguous tree size. *)
Definition may_participate (c : Controller) : bool :=
  match actual_serving_sth_ c with
  | Some sth => tree_size sth <=? contiguous_tree_size (local_node_state_ c)
  | None => false
  end.

(** The call the election gate makes in state [c]. *)
Definition gate_decision (c : Controller) : Event :=
  if may_participate c then StartElection else StopElection.

(** The entry points that run [DetermineElectionParticipation]. *)
Definition reevaluates_gate (call : Call) : bool :=
  match call with
  | CallNewTreeHead _ | CallContiguousTreeSizeUpdated _
  | CallSetNodeHostPort _ _ | CallOnServingSthUpdated _ => true
  | _ => false
  end.

Definition returned {A} (o : Outcome A) : bool :=
  match o with
  | Done _ _ => true
  | Crashed _ => false
  end.

(** Everything but the warning about a failed write of the node state. *)
Definition not_store_warning (e : Event) : bool :=
  match e with
  | Log WarnStoreStatus => false
  | _ => true
  end.

(** The configuration after a run: the entry of the last config update
    that says a configuration exists. *)
Definition config_step (cfg : ClusterConfig) (call : Env * Call) : ClusterConfig :=
  match snd call with
  | CallOnClusterConfigUpdated update =>
      if exists_ update then entry update else cfg
  | _ => cfg
  end.

Definition config_after (calls : list (Env * Call)) (cfg : ClusterConfig)
  : ClusterConfig :=
  fold_left config_step calls cfg.

(** The writes of a calculation. *)
Definition calculation_kinds (k : Kind) : bool :=
  match k with
  | KCalculated | KSignal => true
  | _ => false
  end.

(** A run in which two configurations arrive, a missing one is reported
    in between and again at the end. *)
Definition config_calls : list (Env * Call) :=
  [ (follower, CallOnClusterConfigUpdated (present config_2_half));
    (follower, CallOnClusterConfigUpdated (absent default_config));
    (follower, CallOnClusterStateUpdated S1_batch);
    (follower, CallOnClusterConfigUpdated (present config_3_half));
    (follower, CallOnClusterConfigUpdated (absent default_config)) ].

(* ------------------------------------------------------------------ *)
(** ** Vocabulary of the calculated size over a run *)

(** An STH with a non-zero timestamp and a tree size that fits an [int]. *)
Definition realistic (sth : SignedTreeHead) : bool :=
  (0 <? timestamp sth)%N && (0 <=? tree_size sth)
  && (tree_size sth <=? Int32.max_signed).

Definition update_realistic (update : Update ClusterNodeState) : bool :=
  negb (exists_ update) ||
  match newest_sth (entry update) with
  | Some sth => realistic sth
  | None => true
  end.

(** The peer STHs a call brings are all realistic. *)
Definition call_realistic (call : Env * Call) : bool :=
  match snd call with
  | CallOnClusterStateUpdated updates => forallb update_realistic updates
  | _ => true
  end.

(** Number of peer updates a call, and a run, brings. *)
Definition updates_in (call : Env * Call) : nat :=
  match snd call with
  | CallOnClusterStateUpdated updates => List.length updates
  | _ => 0%nat
  end.

Definition updates_of (calls : list (Env * Call)) : nat :=
  fold_right (fun call n => (updates_in call + n)%nat) 0%nat calls.

(** Every peer STH and the calculated STH, if any, are realistic. *)
Definition steady (c : Controller) : Prop :=
  (forall sth, peer_sth (all_node_states_ c) sth -> realistic sth = true) /\
  (forall sth, calculated_serving_sth_ c = Some sth -> realistic sth = true).

(** The calculated size of [c'] is not below that of [c]. *)
Definition size_kept (c c' : Controller) : Prop :=
  forall before,
    calculated_serving_sth_ c = Some before ->
    exists after,
      calculated_serving_sth_ c' = Some after /\
      tree_size before <= tree_size after.

(** After S1: B leaves, then A and B come back at a larger size. *)
Definition churn_calls : list (Env * Call) :=
  (follower, CallOnClusterStateUpdated B_leaves) :: newer_batch.

(* ================================================================== *)
(** * Properties *)

(* ------------------------------------------------------------------ *)
(** ** [int] conversions *)

Lemma wrap_in_range z :
  Int32.min_signed <= z <= Int32.max_signed -> Int32.wrap z = z.
Proof.
  unfold Int32.wrap, Int32.min_signed, Int32.max_signed,
    Int32.half_modulus, Int32.modulus.
  intros H. rewrite Z.mod_small; lia.
Qed.

Lemma wrap_le z : 0 <= z -> Int32.wrap z <= z.
Proof.
  unfold Int32.wrap, Int32.half_modulus, Int32.modulus. intros H.
  assert (Hm : (z + 2 ^ 31) mod 2 ^ 32 <= z + 2 ^ 31)
    by (apply Z.mod_le; lia).
  lia.
Qed.

(* ------------------------------------------------------------------ *)
(** ** Ordered maps with integer keys *)

Section ZMapFacts.
Variable V : Type.
Implicit Types (m : list (Z * V)) (k : Z) (f : option V -> V).

Lemma sorted_cons_inv k v m :
  sorted ((k, v) :: m) -> sorted m /\ Forall (fun b => k < fst b) m.
Proof.
  intros H. apply StronglySorted_inv in H. exact H.
Qed.

Lemma find_below k m :
  Forall (fun b => k < fst b) m -> find Z.compare k m = None.
Proof.
  induction 1 as [|[k' v] m Hk _ IH]; simpl; [reflexivity|].
  simpl in Hk. destruct (Z.compare_spec k k'); try lia. exact IH.
Qed.

Lemma find_upsert_same k f m :
  sorted m ->
  find Z.compare k (upsert Z.compare k f m) = Some (f (find Z.compare k m)).
Proof.
  induction m as [|[k' v] m IH]; intros Hs; simpl.
  - rewrite Z.compare_refl. reflexivity.
  - apply sorted_cons_inv in Hs. destruct Hs as [Hs Hall].
    destruct (Z.compare_spec k k') as [->|Hlt|Hgt]; simpl.
    + rewrite Z.compare_refl. reflexivity.
    + rewrite Z.compare_refl. f_equal. f_equal. symmetry.
      apply find_below.
      eapply Forall_impl; [|exact Hall]. simpl. intros; lia.
    + destruct (Z.compare_spec k k'); try lia. apply IH, Hs.
Qed.

Lemma find_upsert_other k k0 f m :
  k0 <> k ->
  find Z.compare k0 (upsert Z.compare k f m) = find Z.compare k0 m.
Proof.
  intros Hne. induction m as [|[k' v] m IH]; simpl.
  - destruct (Z.compare_spec k0 k); try lia; reflexivity.
  - destruct (Z.compare_spec k k') as [->|Hlt|Hgt]; simpl.
    + destruct (Z.compare_spec k0 k'); try lia; reflexivity.
    + destruct (Z.compare_spec k0 k); try lia; reflexivity.
    + rewrite IH. reflexivity.
Qed.

Lemma upsert_keys_above k0 k f m :
  k0 < k -> Forall (fun b => k0 < fst b) m ->
  Forall (fun b => k0 < fst b) (upsert Z.compare k f m).
Proof.
  intros Hk. induction 1 as [|[k' v] m Hk' Hall IH]; simpl.
  - constructor; [exact Hk|constructor].
  - destruct (Z.compare_spec k k'); repeat constructor; auto.
Qed.

Lemma upsert_sorted k f m : sorted m -> sorted (upsert Z.compare k f m).
Proof.
  induction m as [|[k' v] m IH]; intros Hs; simpl.
  - repeat constructor.
  - pose proof (sorted_cons_inv Hs) as [Hs' Hall].
    destruct (Z.compare_spec k k') as [->|Hlt|Hgt].
    + constructor; assumption.
    + constructor; [exact Hs|].
      constructor; [exact Hlt|].
      eapply Forall_impl; [|exact Hall]. simpl. intros; lia.
    + constructor; [apply IH, Hs'|].
      apply upsert_keys_above; assumption.
Qed.

Lemma find_In k v m : find Z.compare k m = Some v -> In (k, v) m.
Proof.
  induction m as [|[k' v'] m IH]; simpl; [discriminate|].
  destruct (Z.compare_spec k k') as [->|Hlt|Hgt]; intros H.
  - injection H as ->. left; reflexivity.
  - right; apply IH, H.
  - right; apply IH, H.
Qed.

Lemma sorted_rev_descending m : sorted m -> descending (rev m).
Proof.
  induction m as [|[k v] m IH]; intros Hs; simpl.
  - constructor.
  - apply sorted_cons_inv in Hs. destruct Hs as [Hs Hall].
    specialize (IH Hs). clear Hs.
    assert (Hrev : Forall (fun b => k < fst b) (rev m))
      by (apply Forall_rev, Hall).
    clear Hall. revert IH Hrev. generalize (rev m) as d.
    induction d as [|a d IHd]; intros Hd Hall; simpl.
    + repeat constructor.
    + apply StronglySorted_inv in Hd. destruct Hd as [Hd Ha].
      inversion Hall as [|? ? Hka Hall']; subst.
      constructor; [apply IHd; assumption|].
      apply Forall_app. split; [exact Ha|].
      constructor; [exact Hka|constructor].
Qed.
End ZMapFacts.

(* ------------------------------------------------------------------ *)
(** ** The first loop: what the two maps hold *)

Lemma total_nonneg p (m : CountMap) :
  Forall (fun b => 1 <= snd b) m -> 0 <= total p m.
Proof.
  induction 1 as [|[k n] m Hn _ IH]; simpl in *; [lia|].
  destruct (p k); lia.
Qed.

Lemma in_total_le k n (m : CountMap) :
  Forall (fun b => 1 <= snd b) m -> In (k, n) m ->
  n <= total (fun _ => true) m.
Proof.
  induction 1 as [|[k' n'] m Hn Hall IH]; simpl; [tauto|].
  pose proof (total_nonneg (fun _ => true) Hall). simpl in Hn.
  intros [Heq|Hin]; [injection Heq as -> ->; lia|].
  specialize (IH Hin). lia.
Qed.

Lemma total_upsert_increment p k (m : CountMap) :
  Forall (fun b => 1 <= snd b < Int32.max_signed) m ->
  total p (upsert Z.compare k increment m)
  = total p m + (if p k then 1 else 0).
Proof.
  assert (Hone : Int32.wrap (0 + 1) = 1) by reflexivity.
  induction 1 as [|[k' n] m Hn Hall IH]; simpl.
  - unfold increment. rewrite Hone. destruct (p k); lia.
  - simpl in Hn. destruct (Z.compare_spec k k') as [->|Hlt|Hgt]; simpl.
    + unfold increment. rewrite wrap_in_range
        by (unfold Int32.min_signed, Int32.max_signed in *; cbn in *; lia).
      destruct (p k'); lia.
    + unfold increment. rewrite Hone. destruct (p k), (p k'); lia.
    + rewrite IH. lia.
Qed.

Lemma upsert_increment_positive k (m : CountMap) :
  Forall (fun b => 1 <= snd b < Int32.max_signed) m ->
  Forall (fun b => 1 <= snd b) (upsert Z.compare k increment m).
Proof.
  assert (Hone : Int32.wrap (0 + 1) = 1) by reflexivity.
  induction 1 as [|[k' n] m Hn Hall IH]; simpl.
  - unfold increment. rewrite Hone. constructor; [simpl; lia|constructor].
  - simpl in Hn.
    assert (Hm : Forall (fun b : Z * Z => 1 <= snd b) m)
      by (eapply Forall_impl; [|exact Hall]; simpl; intros; lia).
    destruct (Z.compare_spec k k') as [->|Hlt|Hgt].
    + constructor; [|exact Hm]. simpl. unfold increment.
      rewrite wrap_in_range
        by (unfold Int32.min_signed, Int32.max_signed in *; cbn in *; lia).
      lia.
    + constructor; [simpl; unfold increment; rewrite Hone; lia|].
      constructor; [simpl; lia|exact Hm].
    + constructor; [simpl; lia|exact IH].
Qed.

Lemma upsert_keys_nonneg V k (f : option V -> V) (m : list (Z * V)) :
  0 <= k -> Forall (fun b => 0 <= fst b) m ->
  Forall (fun b => 0 <= fst b) (upsert Z.compare k f m).
Proof.
  intros Hk. induction 1 as [|[k' v] m Hk' Hall IH]; simpl.
  - repeat constructor. exact Hk.
  - destruct (Z.compare_spec k k'); repeat constructor; auto.
Qed.

Lemma peers_where_app p (l1 l2 : NodeMap) :
  peers_where p (l1 ++ l2) = peers_where p l1 + peers_where p l2.
Proof.
  unfold peers_where. rewrite filter_app, length_app. lia.
Qed.

Lemma peers_where_bounds p (nodes : NodeMap) :
  0 <= peers_where p nodes <= Z.of_nat (List.length nodes).
Proof.
  unfold peers_where. pose proof (filter_length_le (has_sth_where p) nodes).
  lia.
Qed.

Lemma peers_where_one p id node :
  peers_where p [(id, node)]
  = match newest_sth node with
    | Some sth => if p (tree_size sth) then 1 else 0
    | None => 0
    end.
Proof.
  unfold peers_where, has_sth_where. simpl.
  destruct (newest_sth node) as [sth|]; [|reflexivity].
  destruct (p (tree_size sth)); reflexivity.
Qed.

Lemma peer_sth_app_l (l1 l2 : NodeMap) sth :
  peer_sth l1 sth -> peer_sth (l1 ++ l2) sth.
Proof.
  intros (id & node & Hin & Hsth). exists id, node. split; [|exact Hsth].
  apply in_or_app. left. exact Hin.
Qed.

Lemma sth_at_upsert sth (m : SthMap) k :
  sorted m ->
  sth_at (upsert Z.compare (tree_size sth) (keep_newest sth) m) k
  = if k =? tree_size sth
    then (if (timestamp (sth_at m k) <? timestamp sth)%N then sth else sth_at m k)
    else sth_at m k.
Proof.
  intros Hs. unfold sth_at. destruct (Z.eqb_spec k (tree_size sth)) as [->|Hne].
  - rewrite find_upsert_same by exact Hs. unfold keep_newest.
    destruct (find Z.compare (tree_size sth) m); reflexivity.
  - rewrite find_upsert_other by exact Hne. reflexivity.
Qed.

Lemma counts_of_bound seen (m : CountMap) :
  counts_of seen m -> Z.of_nat (List.length seen) < Int32.max_signed ->
  Forall (fun b => 1 <= snd b < Int32.max_signed) m.
Proof.
  intros (_ & Hpos & _ & Htot) Hlen. apply Forall_forall. intros [k n] Hin.
  pose proof (in_total_le _ _ Hpos Hin) as Hle. rewrite Htot in Hle.
  pose proof (peers_where_bounds (fun _ => true) seen).
  rewrite Forall_forall in Hpos. specialize (Hpos _ Hin). simpl in *. lia.
Qed.

Lemma tally_node_step seen id node maps maps' :
  counts_of seen (snd maps) -> sths_of seen (fst maps) ->
  Z.of_nat (List.length seen) < Int32.max_signed ->
  tally_node node maps = Some maps' ->
  counts_of (seen ++ [(id, node)]) (snd maps') /\
  sths_of (seen ++ [(id, node)]) (fst maps').
Proof.
  intros Hc Hs Hlen. unfold tally_node.
  destruct (newest_sth node) as [sth|] eqn:Hnode.
  - destruct (Z.leb_spec 0 (tree_size sth)) as [Hsize|]; [|discriminate].
    intros Heq. injection Heq as <-. simpl.
    pose proof (counts_of_bound Hc Hlen) as Hbound.
    destruct Hc as (Hsorted & Hpos & Hkeys & Htot).
    destruct Hs as (Hsorted' & Hentry & Hmax).
    split; [|split; [|split]].
    + split; [apply upsert_sorted, Hsorted|].
      split; [apply upsert_increment_positive, Hbound|].
      split; [apply upsert_keys_nonneg; assumption|].
      intros p. rewrite total_upsert_increment by exact Hbound.
      rewrite peers_where_app, peers_where_one, Hnode, Htot. reflexivity.
    + apply upsert_sorted, Hsorted'.
    + intros k. rewrite sth_at_upsert by exact Hsorted'.
      destruct (Z.eqb_spec k (tree_size sth)) as [->|Hne].
      * destruct (N.ltb_spec (timestamp (sth_at (fst maps) (tree_size sth)))
                    (timestamp sth)) as [Hlt|Hge].
        -- right. split; [|split; [reflexivity|lia]].
           exists id, node. split; [|exact Hnode].
           apply in_or_app. right. left. reflexivity.
        -- destruct (Hentry (tree_size sth)) as [Hd|(Hp & Hk & Ht)];
             [left; exact Hd|right].
           split; [apply peer_sth_app_l, Hp|split; assumption].
      * destruct (Hentry k) as [Hd|(Hp & Hk & Ht)]; [left; exact Hd|right].
        split; [apply peer_sth_app_l, Hp|split; assumption].
    + intros sth' (id' & node' & Hin & Hsth').
      rewrite sth_at_upsert by exact Hsorted'.
      apply in_app_or in Hin. destruct Hin as [Hin|[Heq|[]]].
      * assert (Hold : (timestamp sth' <=
                        timestamp (sth_at (fst maps) (tree_size sth')))%N)
          by (apply Hmax; exists id', node'; split; assumption).
        destruct (Z.eqb_spec (tree_size sth') (tree_size sth)) as [He|];
          [|exact Hold].
        destruct (N.ltb_spec (timestamp (sth_at (fst maps) (tree_size sth')))
                    (timestamp sth)); [lia|exact Hold].
      * injection Heq as <- <-. rewrite Hnode in Hsth'. injection Hsth' as <-.
        rewrite Z.eqb_refl.
        destruct (N.ltb_spec (timestamp (sth_at (fst maps) (tree_size sth)))
                    (timestamp sth)); lia.
  - intros Heq. injection Heq as <-.
    destruct Hc as (Hsorted & Hpos & Hkeys & Htot).
    destruct Hs as (Hsorted' & Hentry & Hmax).
    split; [split; [|split; [|split]]|split; [|split]]; try assumption.
    + intros p. rewrite peers_where_app, peers_where_one, Hnode, Htot. lia.
    + intros k. destruct (Hentry k) as [Hd|(Hp & Hk & Ht)]; [left; exact Hd|right].
      split; [apply peer_sth_app_l, Hp|split; assumption].
    + intros sth' (id' & node' & Hin & Hsth').
      apply in_app_or in Hin. destruct Hin as [Hin|[Heq|[]]].
      * apply Hmax. exists id', node'. split; assumption.
      * injection Heq as <- <-. congruence.
Qed.

Lemma tally_from rest : forall seen maps maps',
  counts_of seen (snd maps) -> sths_of seen (fst maps) ->
  Z.of_nat (List.length (seen ++ rest)) <= Int32.max_signed ->
  tally rest maps = Some maps' ->
  counts_of (seen ++ rest) (snd maps') /\ sths_of (seen ++ rest) (fst maps').
Proof.
  induction rest as [|[id node] rest IH]; intros seen maps maps' Hc Hs Hlen; simpl.
  - intros Heq. injection Heq as <-. rewrite app_nil_r. split; assumption.
  - destruct (tally_node node maps) as [maps1|] eqn:Hnode; [|discriminate].
    intros Hrest. rewrite length_app in Hlen. simpl in Hlen.
    destruct (@tally_node_step seen id node maps maps1 Hc Hs) as [Hc1 Hs1];
      [lia|exact Hnode|].
    replace (seen ++ (id, node) :: rest) with ((seen ++ [(id, node)]) ++ rest)
      by (rewrite <- app_assoc; reflexivity).
    apply IH with (maps := maps1); try assumption.
    rewrite !length_app. simpl. lia.
Qed.

Lemma tally_maps nodes sths counts :
  Z.of_nat (List.length nodes) <= Int32.max_signed ->
  tally nodes ([], []) = Some (sths, counts) ->
  counts_of nodes counts /\ sths_of nodes sths.
Proof.
  intros Hlen Ht.
  apply (@tally_from nodes [] ([], []) (sths, counts)); simpl; try assumption.
  - split; [constructor|]. split; [constructor|]. split; [constructor|].
    intros p. reflexivity.
  - split; [constructor|]. split.
    + intros k. left. reflexivity.
    + intros sth (id & node & [] & _).
Qed.

(* ------------------------------------------------------------------ *)
(** ** The second loop: where the descent stops *)

Lemma total_app p (l1 l2 : CountMap) :
  total p (l1 ++ l2) = total p l1 + total p l2.
Proof.
  induction l1 as [|[k n] l1 IH]; simpl; [reflexivity|]. rewrite IH. lia.
Qed.

Lemma total_rev p (m : CountMap) : total p (rev m) = total p m.
Proof.
  induction m as [|[k n] m IH]; simpl; [reflexivity|].
  rewrite total_app, IH. simpl. lia.
Qed.

Lemma total_below s (d : CountMap) :
  Forall (fun b => fst b < s) d -> total (fun k => s <=? k) d = 0.
Proof.
  induction 1 as [|[k n] d Hk _ IH]; simpl; [reflexivity|].
  simpl in Hk. destruct (Z.leb_spec s k); lia.
Qed.

Lemma scan_key cfg N floor (d : CountMap) : forall seen s n,
  scan cfg N floor seen d = Some (s, n) -> exists c, In (s, c) d.
Proof.
  induction d as [|[k c] d IH]; intros seen s n; simpl; [discriminate|].
  destruct (k >=? floor); [|discriminate].
  destruct (can_serve cfg N (Int32.wrap (seen + c))).
  - intros Heq. injection Heq as <- _. exists c. left. reflexivity.
  - intros Hrest. destruct (IH _ _ _ Hrest) as [c' Hin].
    exists c'. right. exact Hin.
Qed.

Lemma scan_result cfg N floor (d : CountMap) : forall seen s n,
  descending d -> Forall (fun b => 1 <= snd b) d ->
  0 <= seen -> seen + total (fun _ => true) d <= Int32.max_signed ->
  scan cfg N floor seen d = Some (s, n) ->
  n = seen + total (fun k => s <=? k) d /\
  can_serve cfg N n = true /\ floor <= s.
Proof.
  induction d as [|[k c] d IH]; intros seen s n Hd Hpos Hseen Hmax; simpl;
    [discriminate|].
  apply StronglySorted_inv in Hd. destruct Hd as [Hd Hk].
  inversion Hpos as [|? ? Hc Hpos']; subst. simpl in *.
  pose proof (total_nonneg (fun _ => true) Hpos') as Hrest.
  destruct (Z.geb_spec k floor) as [Hfloor|]; [|discriminate].
  rewrite wrap_in_range by (unfold Int32.min_signed, Int32.max_signed in *;
                            cbn in *; lia).
  destruct (can_serve cfg N (seen + c)) eqn:Hserve.
  - intros Heq. injection Heq as <- <-.
    rewrite Z.leb_refl, total_below by exact Hk. repeat split; [lia|assumption|lia].
  - intros Hscan. destruct (scan_key _ _ _ _ _ Hscan) as [c' Hin].
    rewrite Forall_forall in Hk. specialize (Hk _ Hin). simpl in Hk.
    destruct (IH (seen + c) s n Hd Hpos') as (-> & Hs & Hf);
      [lia|lia|exact Hscan|].
    destruct (Z.leb_spec s k); [|lia]. repeat split; [lia|assumption|assumption].
Qed.

Lemma scan_lower_floor cfg N floor floor' (d : CountMap) : forall seen s n,
  descending d ->
  scan cfg N floor seen d = Some (s, n) -> floor' <= s ->
  scan cfg N floor' seen d = Some (s, n).
Proof.
  induction d as [|[k c] d IH]; intros seen s n Hd; simpl; [discriminate|].
  apply StronglySorted_inv in Hd. destruct Hd as [Hd Hk].
  destruct (Z.geb_spec k floor) as [Hfloor|]; [|discriminate].
  destruct (can_serve cfg N (Int32.wrap (seen + c))) eqn:Hserve.
  - intros Heq Hle. injection Heq as <- <-.
    destruct (Z.geb_spec k floor'); [|lia]. reflexivity.
  - intros Hscan Hle. destruct (scan_key _ _ _ _ _ Hscan) as [c' Hin].
    rewrite Forall_forall in Hk. specialize (Hk _ Hin). simpl in Hk.
    destruct (Z.geb_spec k floor'); [|lia].
    apply IH; assumption.
Qed.

(* ------------------------------------------------------------------ *)
(** ** [CalculateServingSTH], unfolded *)

Lemma CalculateServingSTH_unfold env w :
  CalculateServingSTH env w
  = match calculation (csc w) with
    | CalcAbort => Crashed w
    | CalcNoQuorum =>
        Done tt (mkWorld (csc w) (updater w) (Log WarnFailedToDetermine :: trace w))
    | CalcServe size n sth => Done tt (served env size n sth w)
    end.
Proof.
  unfold CalculateServingSTH, calculation, served, bind, get, check, emit,
    modify, ask_is_master, when, ret.
  destruct (tally (all_node_states_ (csc w)) ([], [])) as [[sths counts]|];
    [|reflexivity].
  destruct (0 <=? Int32.wrap _); [|reflexivity].
  destruct (scan _ _ _ _ _) as [[size n]|]; [|reflexivity].
  simpl. destruct (election_is_master env); reflexivity.
Qed.

Lemma emitted_app c u evs w :
  emitted w (mkWorld c u (evs ++ trace w)) = evs.
Proof.
  unfold emitted. simpl. rewrite length_app.
  replace (List.length evs + List.length (trace w) - List.length (trace w))%nat
    with (List.length evs + 0)%nat by lia.
  rewrite firstn_app_2. simpl. apply app_nil_r.
Qed.

Lemma emitted_served env size n sth w :
  emitted w (served env size n sth w)
  = (if election_is_master env then [NotifyAll] else [])
      ++ [IsMaster FromCalculation (election_is_master env);
          Log (InfoCanServe size n)].
Proof.
  unfold served. destruct (election_is_master env).
  - apply (emitted_app _ _ [NotifyAll; IsMaster FromCalculation true;
                            Log (InfoCanServe size n)]).
  - apply (emitted_app _ _ [IsMaster FromCalculation false;
                            Log (InfoCanServe size n)]).
Qed.

Lemma assigns_at_inv env w s w' :
  assigns_at env w s w' ->
  exists n sth, calculation (csc w) = CalcServe s n sth /\
                w' = served env s n sth w.
Proof.
  intros [Hrun [n Hlog]]. rewrite CalculateServingSTH_unfold in Hrun.
  destruct (calculation (csc w)) as [| |size n' sth]; try discriminate.
  - injection Hrun as <-.
    rewrite (emitted_app _ _ [Log WarnFailedToDetermine]) in Hlog.
    destruct Hlog as [Heq|[]]. discriminate.
  - injection Hrun as <-. rewrite emitted_served in Hlog.
    exists n', sth.
    assert (Hs : size = s).
    { destruct (election_is_master env); simpl in Hlog;
        repeat (destruct Hlog as [Heq|Hlog]; [try discriminate|]);
        try contradiction; injection Heq as -> _; reflexivity. }
    subst size. split; reflexivity.
Qed.

Lemma assigns_at_intro env w s n sth :
  calculation (csc w) = CalcServe s n sth ->
  assigns_at env w s (served env s n sth w).
Proof.
  intros Hc. split.
  - rewrite CalculateServingSTH_unfold, Hc. reflexivity.
  - exists n. rewrite emitted_served. apply in_or_app. right. right. left.
    reflexivity.
Qed.

(** What a run that serves at [s] has established. *)
Lemma calculation_serve c s n sth :
  Z.of_nat (List.length (all_node_states_ c)) <= Int32.max_signed ->
  calculation c = CalcServe s n sth ->
  exists sths counts,
    tally (all_node_states_ c) ([], []) = Some (sths, counts) /\
    counts_of (all_node_states_ c) counts /\
    sths_of (all_node_states_ c) sths /\
    sth = sth_at sths s /\
    n = peers_at_least s (all_node_states_ c) /\
    can_serve (cluster_config_ c) (List.length (all_node_states_ c)) n = true /\
    0 <= s /\
    scan (cluster_config_ c) (List.length (all_node_states_ c))
         (Int32.wrap (match calculated_serving_sth_ c with
                      | Some s => tree_size s
                      | None => 0
                      end)) 0 (rev counts) = Some (s, n) /\
    Int32.wrap (match calculated_serving_sth_ c with
                | Some s => tree_size s
                | None => 0
                end) <= s /\
    exists k, In (s, k) counts.
Proof.
  intros Hlen. unfold calculation.
  destruct (tally (all_node_states_ c) ([], [])) as [[sths counts]|] eqn:Ht;
    [|discriminate].
  destruct (Z.leb_spec 0 (Int32.wrap (match calculated_serving_sth_ c with
                                      | Some s => tree_size s
                                      | None => 0
                                      end))) as [Hfloor|]; [|discriminate].
  destruct (scan _ _ _ _ _) as [[size n']|] eqn:Hscan; [|discriminate].
  intros Heq. injection Heq as -> -> <-.
  destruct (tally_maps _ Hlen Ht) as [Hc Hs].
  pose proof Hc as (Hsorted & Hpos & Hkeys & Htot).
  assert (Hres : n = 0 + total (fun k => s <=? k) (rev counts) /\
                 can_serve (cluster_config_ c)
                   (List.length (all_node_states_ c)) n = true /\
                 Int32.wrap (match calculated_serving_sth_ c with
                             | Some s => tree_size s
                             | None => 0
                             end) <= s).
  { apply scan_result with (5 := Hscan).
    - apply sorted_rev_descending, Hsorted.
    - apply Forall_rev, Hpos.
    - lia.
    - rewrite total_rev, Htot.
      pose proof (peers_where_bounds (fun _ => true) (all_node_states_ c)). lia. }
  destruct Hres as (Hn & Hserve & Hfloor').
  destruct (scan_key _ _ _ _ _ Hscan) as [c' Hin]. apply in_rev in Hin.
  exists sths, counts.
  split; [reflexivity|]. split; [exact Hc|]. split; [exact Hs|].
  split; [reflexivity|]. split; [|split; [exact Hserve|split]].
  - rewrite Hn, total_rev, Htot. reflexivity.
  - rewrite Forall_forall in Hkeys. apply (Hkeys _ Hin).
  - split; [exact Hscan|]. split; [exact Hfloor'|]. exists c'. exact Hin.
Qed.

(* ------------------------------------------------------------------ *)
(** ** Quorum *)

(** C2 -- Quorum soundness.  Whenever [CalculateServingSTH] assigns
    [calculated_serving_sth_] at a size [s], the number of peers whose
    newest STH has a tree size of at least [s] is, at that moment, at
    least [minimum_serving_nodes], and that number divided by the number
    of peer states is at least [minimum_serving_fraction]; the division
    and the comparison are those of [double], as in the code.  The
    number of peers is taken to fit the [int] the code counts them in. *)
Theorem quorum_soundness env w s w' :
  Z.of_nat (List.length (all_node_states_ (csc w))) <= Int32.max_signed ->
  assigns_at env w s w' ->
  all_node_states_ (csc w') = all_node_states_ (csc w) /\
  cluster_config_ (csc w') = cluster_config_ (csc w) /\
  peers_at_least s (all_node_states_ (csc w))
    >= minimum_serving_nodes (cluster_config_ (csc w)) /\
  Double.ge
    (Double.div
       (Double.of_Z (peers_at_least s (all_node_states_ (csc w))))
       (Double.of_Z (Z.of_nat (List.length (all_node_states_ (csc w))))))
    (minimum_serving_fraction (cluster_config_ (csc w))) = true.
Proof.
  intros Hlen Hassign.
  destruct (assigns_at_inv Hassign) as (n & sth & Hcalc & ->).
  destruct (calculation_serve _ Hlen Hcalc)
    as (sths & counts & _ & _ & _ & _ & -> & Hserve & _).
  unfold can_serve in Hserve. apply andb_prop in Hserve.
  destruct Hserve as [Hfraction Hnodes].
  split; [|split; [|split]].
  - unfold served. destruct (election_is_master env); reflexivity.
  - unfold served. destruct (election_is_master env); reflexivity.
  - apply Z.geb_le in Hnodes. lia.
  - exact Hfraction.
Qed.

Lemma quorum_soundness_witness :
  peers_at_least 10 S1_nodes >= 2 /\
  Double.ge (Double.div (Double.of_Z (peers_at_least 10 S1_nodes))
                        (Double.of_Z 4)) Double.half = true.
Proof.
  pose (w := with_nodes_config_calculated S1_nodes config_2_half None initial_world).
  assert (Hlen : Z.of_nat (List.length (all_node_states_ (csc w)))
                 <= Int32.max_signed) by (vm_compute; discriminate).
  assert (Hassign : assigns_at master w 10 (final (CalculateServingSTH master w))).
  { split; [reflexivity|]. exists 2. vm_compute. tauto. }
  destruct (quorum_soundness Hlen Hassign) as (_ & _ & Hnodes & Hfraction).
  split; [exact Hnodes|exact Hfraction].
Defined.

(* ------------------------------------------------------------------ *)
(** ** Scenarios S1 and S3 *)

(** C6 -- S1, quorum just met.  With [minimum_serving_nodes = 2],
    [minimum_serving_fraction = 0.5], peers A (size 10, timestamp 100),
    B (size 10, timestamp 110), C (size 7, timestamp 90) and D without an
    STH, and no previously calculated STH, [CalculateServingSTH] returns
    and leaves B's STH, of tree size 10 and timestamp 110, in
    [calculated_serving_sth_]; the other fields of the starting world
    and the election's answer do not matter. *)
Theorem S1_quorum_just_met env w :
  exists w',
    CalculateServingSTH env
      (with_nodes_config_calculated S1_nodes config_2_half None w)
    = Done tt w' /\
    calculated_serving_sth_ (csc w') = Some sth_B /\
    tree_size sth_B = 10 /\ timestamp sth_B = 110%N.
Proof.
  rewrite CalculateServingSTH_unfold.
  assert (Hcalc : calculation
                    (csc (with_nodes_config_calculated S1_nodes config_2_half
                            None w))
                  = CalcServe 10 2 sth_B) by reflexivity.
  rewrite Hcalc. eexists. split; [reflexivity|].
  split; [|split; reflexivity].
  unfold served. destruct (election_is_master env); reflexivity.
Qed.

(** C7 -- S3, the monotonicity guard.  From a calculated STH of tree size
    10 and timestamp 110, with the same configuration and peers A
    (size 10, timestamp 100), C (size 7, timestamp 90) and D without an
    STH, [CalculateServingSTH] returns having changed no field of the
    controller: [calculated_serving_sth_] is still that STH and
    [update_required_] is not set; it only logs the warning, and neither
    asks the election nor notifies the publisher.  The same holds when
    that state is reached through the watch callbacks, by the deletion of
    B's entry after S1. *)
Theorem S3_monotonicity_guard env w root_hash :
  let calculated := mkSTH 110 10 root_hash in
  let w0 := with_nodes_config_calculated S3_nodes config_2_half
              (Some calculated) w in
  (exists w',
      CalculateServingSTH env w0 = Done tt w' /\
      csc w' = csc w0 /\
      calculated_serving_sth_ (csc w') = Some calculated /\
      update_required_ (csc w') = update_required_ (csc w) /\
      emitted w0 w' = [Log WarnFailedToDetermine]) /\
  (exists w',
      OnClusterStateUpdated env B_leaves S1_calculated = Done tt w' /\
      all_node_states_ (csc w') = S3_nodes /\
      calculated_serving_sth_ (csc S1_calculated) = Some sth_B /\
      calculated_serving_sth_ (csc w') = Some sth_B /\
      update_required_ (csc w') = false /\
      emitted S1_calculated w' = [Log WarnFailedToDetermine]).
Proof.
  intros calculated w0. split.
  - rewrite CalculateServingSTH_unfold.
    assert (Hcalc : calculation (csc w0) = CalcNoQuorum) by reflexivity.
    rewrite Hcalc. eexists. split; [reflexivity|].
    split; [reflexivity|]. split; [reflexivity|]. split; [reflexivity|].
    apply (emitted_app _ _ [Log WarnFailedToDetermine]).
  - exists (final (OnClusterStateUpdated follower B_leaves S1_calculated)).
    split; [|repeat split].
    unfold OnClusterStateUpdated, bind.
    assert (Hupd : apply_updates B_leaves S1_calculated
                   = Done tt (final (apply_updates B_leaves S1_calculated)))
      by reflexivity.
    rewrite Hupd, !CalculateServingSTH_unfold.
    assert (Hcalc : calculation
                      (csc (final (apply_updates B_leaves S1_calculated)))
                    = CalcNoQuorum) by reflexivity.
    rewrite Hcalc. reflexivity.
Qed.

(* ------------------------------------------------------------------ *)
(** ** The election gate *)

Lemma DetermineElectionParticipation_unfold w :
  DetermineElectionParticipation w
  = Done tt (mkWorld (csc w) (updater w) (gate_events (csc w) ++ trace w)).
Proof.
  unfold DetermineElectionParticipation, gate_events, bind, get, emit.
  destruct (actual_serving_sth_ (csc w)) as [sth|]; [|reflexivity].
  destruct (tree_size sth >? _); reflexivity.
Qed.

Lemma PushLocalNodeState_unfold env w :
  PushLocalNodeState env w
  = Done tt (mkWorld (csc w) (updater w) (push_events env (csc w) ++ trace w)).
Proof.
  unfold PushLocalNodeState, push_events, bind at 1.
  rewrite DetermineElectionParticipation_unfold.
  unfold bind, get, emit, when, ret. simpl.
  destruct (store_status_ok env); reflexivity.
Qed.

(** C4 -- Election gating.  From every state, [DetermineElectionParticipation]
    returns without touching the controller's fields and makes exactly
    one call on the election: [StopElection] when [actual_serving_sth_]
    is unset, [StopElection] when it is set with a tree size above the
    local contiguous tree size, [StartElection] otherwise.  So the node
    is put into the election exactly when the serving STH is set and its
    tree size is at most the local contiguous tree size. *)
Theorem election_gating w :
  exists w',
    DetermineElectionParticipation w = Done tt w' /\
    csc w' = csc w /\
    filter election_call (emitted w w')
    = [ match actual_serving_sth_ (csc w) with
        | None => StopElection
        | Some sth =>
            if tree_size sth >? contiguous_tree_size (local_node_state_ (csc w))
            then StopElection
            else StartElection
        end ] /\
    (In StartElection (emitted w w') <->
     exists sth, actual_serving_sth_ (csc w) = Some sth /\
                 tree_size sth <= contiguous_tree_size (local_node_state_ (csc w))).
Proof.
  rewrite DetermineElectionParticipation_unfold. eexists.
  split; [reflexivity|]. split; [reflexivity|].
  rewrite emitted_app. unfold gate_events.
  destruct (actual_serving_sth_ (csc w)) as [sth|].
  - destruct (Z.gtb_spec (tree_size sth)
                (contiguous_tree_size (local_node_state_ (csc w)))) as [Hgt|Hle].
    + split; [reflexivity|]. split.
      * simpl. intros [H|[H|[]]]; discriminate.
      * intros (sth' & Heq & Hle). injection Heq as <-. lia.
    + split; [reflexivity|]. split.
      * intros _. exists sth. split; [reflexivity|exact Hle].
      * intros _. left. reflexivity.
  - split; [reflexivity|]. split.
    + simpl. intros [H|[H|[]]]; discriminate.
    + intros (sth' & Heq & _). discriminate.
Qed.

(* ------------------------------------------------------------------ *)
(** ** Local tree heads *)

(** C8 -- Timestamp contract of [NewTreeHead].  When a newest STH is
    recorded and the new STH has a strictly smaller timestamp, the call
    dies on its [CHECK_GE] with the world exactly as it found it: no
    field is changed and no call on the election or the store is made.
    In every other case the call returns, the new STH is the recorded
    newest STH, nothing else of the controller has changed, and the node
    state holding the new STH has been handed to the store. *)
Theorem NewTreeHead_timestamp_contract env sth w :
  if older_than_newest sth (csc w)
  then NewTreeHead env sth w = Crashed w
  else exists w',
      NewTreeHead env sth w = Done tt w' /\
      csc w' = set_local_node_state
                 (with_newest_sth sth (local_node_state_ (csc w))) (csc w) /\
      newest_sth (local_node_state_ (csc w')) = Some sth /\
      emitted w w' = push_events env (csc w') /\
      In (SetClusterNodeState (local_node_state_ (csc w'))) (emitted w w').
Proof.
  assert (Hrecorded :
            (modify (fun c => set_local_node_state
                                (with_newest_sth sth (local_node_state_ c)) c) ;;
             PushLocalNodeState env) w
            = Done tt
                (mkWorld
                   (set_local_node_state
                      (with_newest_sth sth (local_node_state_ (csc w))) (csc w))
                   (updater w)
                   (push_events env
                      (set_local_node_state
                         (with_newest_sth sth (local_node_state_ (csc w)))
                         (csc w))
                      ++ trace w))).
  { unfold bind at 1, modify. rewrite PushLocalNodeState_unfold. reflexivity. }
  assert (Hdone : exists w',
             (modify (fun c => set_local_node_state
                                 (with_newest_sth sth (local_node_state_ c)) c) ;;
              PushLocalNodeState env) w = Done tt w' /\
             csc w' = set_local_node_state
                        (with_newest_sth sth (local_node_state_ (csc w)))
                        (csc w) /\
             newest_sth (local_node_state_ (csc w')) = Some sth /\
             emitted w w' = push_events env (csc w') /\
             In (SetClusterNodeState (local_node_state_ (csc w')))
                (emitted w w')).
  { eexists. split; [exact Hrecorded|]. split; [reflexivity|].
    split; [reflexivity|]. rewrite emitted_app. split; [reflexivity|].
    unfold push_events. apply in_or_app. right. left. reflexivity. }
  assert (Hcheck :
            NewTreeHead env sth w
            = if older_than_newest sth (csc w) then Crashed w
              else (modify (fun c => set_local_node_state
                                       (with_newest_sth sth (local_node_state_ c))
                                       c) ;;
                    PushLocalNodeState env) w).
  { unfold older_than_newest, NewTreeHead, bind, get, check, ret.
    destruct (newest_sth (local_node_state_ (csc w))) as [prev|];
      [|reflexivity].
    destruct (N.ltb_spec (timestamp sth) (timestamp prev));
      destruct (N.leb_spec (timestamp prev) (timestamp sth));
      try lia; reflexivity. }
  rewrite Hcheck. destruct (older_than_newest sth (csc w));
    [reflexivity|exact Hdone].
Qed.

(* ------------------------------------------------------------------ *)
(** ** Entries of [sth_by_size] that stay default-constructed *)

Lemma served_fields env s n sth w :
  all_node_states_ (csc (served env s n sth w)) = all_node_states_ (csc w) /\
  cluster_config_ (csc (served env s n sth w)) = cluster_config_ (csc w) /\
  calculated_serving_sth_ (csc (served env s n sth w)) = Some sth /\
  (election_is_master env = true ->
   update_required_ (csc (served env s n sth w)) = true) /\
  (election_is_master env = false ->
   update_required_ (csc (served env s n sth w)) = update_required_ (csc w)).
Proof.
  unfold served. destruct (election_is_master env); simpl;
    repeat split; congruence.
Qed.

(** C9 -- When every peer STH of the size [s] at which the calculation
    stops has timestamp 0, [CalculateServingSTH] leaves the
    default-constructed STH, of tree size 0, in [calculated_serving_sth_]:
    the entry of [sth_by_size] at [s] is only replaced on a strictly
    larger timestamp than its own 0.  For [s] above 0 that is the STH
    of no peer at size [s]. *)
Theorem zero_timestamps_serve_default_sth env w s w' :
  Z.of_nat (List.length (all_node_states_ (csc w))) <= Int32.max_signed ->
  assigns_at env w s w' ->
  (forall sth, peer_sth (all_node_states_ (csc w)) sth ->
               tree_size sth = s -> timestamp sth = 0%N) ->
  calculated_serving_sth_ (csc w') = Some default_sth /\
  tree_size default_sth = 0 /\
  (0 < s ->
   forall sth, peer_sth (all_node_states_ (csc w)) sth -> tree_size sth = s ->
               calculated_serving_sth_ (csc w') <> Some sth).
Proof.
  intros Hlen Hassign Hzero.
  destruct (assigns_at_inv Hassign) as (n & sth & Hcalc & ->).
  destruct (calculation_serve _ Hlen Hcalc)
    as (sths & counts & _ & _ & Hs & -> & _).
  destruct (served_fields env s n (sth_at sths s) w) as (_ & _ & -> & _).
  assert (Hdefault : sth_at sths s = default_sth).
  { destruct Hs as (_ & Hentry & _).
    destruct (Hentry s) as [Hd|(Hpeer & Hsize & Hts)]; [exact Hd|].
    rewrite (Hzero _ Hpeer Hsize) in Hts. lia. }
  rewrite Hdefault. split; [reflexivity|]. split; [reflexivity|].
  intros Hpos sth _ Hsize Heq. injection Heq as <-. simpl in Hsize. lia.
Qed.

Lemma zero_timestamps_serve_default_sth_witness :
  calculated_serving_sth_
    (csc (final (CalculateServingSTH master zero_timestamp_world)))
  = Some default_sth /\
  tree_size default_sth = 0 /\
  (0 < 5 ->
   forall sth,
     peer_sth (all_node_states_ (csc zero_timestamp_world)) sth ->
     tree_size sth = 5 ->
     calculated_serving_sth_
       (csc (final (CalculateServingSTH master zero_timestamp_world)))
     <> Some sth).
Proof.
  apply (@zero_timestamps_serve_default_sth master zero_timestamp_world 5).
  - vm_compute. discriminate.
  - split; [reflexivity|]. exists 1. vm_compute. tauto.
  - intros sth (id & node & [Heq|[]] & Hsth) _.
    injection Heq as <- <-. simpl in Hsth. injection Hsth as <-. reflexivity.
Defined.

(* ------------------------------------------------------------------ *)
(** ** Repeated calculations *)

Lemma calculation_ext c1 c2 :
  all_node_states_ c1 = all_node_states_ c2 ->
  cluster_config_ c1 = cluster_config_ c2 ->
  calculated_serving_sth_ c1 = calculated_serving_sth_ c2 ->
  calculation c1 = calculation c2.
Proof.
  unfold calculation. intros -> -> ->. reflexivity.
Qed.

(** A calculation that served [sth] at [s] serves it again when run on
    the fields it left behind, as long as the size of [sth] is not
    negative once converted to [int]. *)
Lemma calculation_again c s n sth c' :
  Z.of_nat (List.length (all_node_states_ c)) <= Int32.max_signed ->
  0 <= Int32.wrap (tree_size sth) ->
  calculation c = CalcServe s n sth ->
  all_node_states_ c' = all_node_states_ c ->
  cluster_config_ c' = cluster_config_ c ->
  calculated_serving_sth_ c' = Some sth ->
  calculation c' = CalcServe s n sth.
Proof.
  intros Hlen Hwrap Hcalc Hnodes Hcfg Hcalculated.
  destruct (calculation_serve _ Hlen Hcalc)
    as (sths & counts & Ht & Hc & Hs & -> & _ & _ & Hpos & Hscan & _).
  unfold calculation. rewrite Hnodes, Hcfg, Hcalculated, Ht.
  assert (Hfloor : Int32.wrap (tree_size (sth_at sths s)) <= s).
  { destruct Hs as (_ & Hentry & _).
    destruct (Hentry s) as [->|(_ & -> & _)].
    - simpl. change (Int32.wrap 0) with 0. lia.
    - apply wrap_le, Hpos. }
  destruct (Z.leb_spec 0 (Int32.wrap (tree_size (sth_at sths s)))); [|lia].
  rewrite (@scan_lower_floor _ _ _ (Int32.wrap (tree_size (sth_at sths s)))
             _ _ _ _ (sorted_rev_descending (proj1 Hc)) Hscan) by lia.
  reflexivity.
Qed.

(** The STH assigned at a size [s] that fits an [int] has a size that is
    not negative as an [int]: it is [s] or, for the default STH, 0. *)
Lemma assigned_size_fits c s n sth :
  Z.of_nat (List.length (all_node_states_ c)) <= Int32.max_signed ->
  calculation c = CalcServe s n sth ->
  s <= Int32.max_signed ->
  0 <= Int32.wrap (tree_size sth).
Proof.
  intros Hlen Hcalc Hmax.
  destruct (calculation_serve _ Hlen Hcalc)
    as (sths & counts & _ & _ & Hs & -> & _ & _ & Hpos & _).
  destruct Hs as (_ & Hentry & _).
  destruct (Hentry s) as [->|(_ & -> & _)].
  - simpl. change (Int32.wrap 0) with 0. lia.
  - rewrite wrap_in_range
      by (unfold Int32.min_signed, Int32.max_signed in *; cbn in *; lia).
    exact Hpos.
Qed.

(** C3, as the code has it -- A second run of [CalculateServingSTH], on
    the peer states, the cluster configuration and the calculated STH
    that a first run left behind, never stays quiet.  If the tree size of
    the calculated STH is not negative once converted to the [int] in
    which the code holds it, as is the case whenever the first run
    assigned at a size up to 2^31 - 1, the second run stops at the same
    size and assigns the same STH again; while the node is master it
    sets [update_required_] and notifies the publisher's condition
    variable again, whatever the publisher did with the flag in between.
    Otherwise the second run ends the process on
    [CHECK_LE(0, current_tree_size)], the world left as it was. *)
Theorem recalculation_signals_again env1 env2 w s w1 w2 :
  Z.of_nat (List.length (all_node_states_ (csc w))) <= Int32.max_signed ->
  assigns_at env1 w s w1 ->
  all_node_states_ (csc w2) = all_node_states_ (csc w1) ->
  cluster_config_ (csc w2) = cluster_config_ (csc w1) ->
  calculated_serving_sth_ (csc w2) = calculated_serving_sth_ (csc w1) ->
  election_is_master env2 = true ->
  (s <= Int32.max_signed -> 0 <= current_tree_size (csc w1)) /\
  if 0 <=? current_tree_size (csc w1)
  then exists w3,
      assigns_at env2 w2 s w3 /\
      calculated_serving_sth_ (csc w3) = calculated_serving_sth_ (csc w1) /\
      update_required_ (csc w3) = true /\
      In NotifyAll (emitted w2 w3)
  else CalculateServingSTH env2 w2 = Crashed w2.
Proof.
  intros Hlen Hassign Hnodes Hcfg Hcalculated Hmaster.
  destruct (assigns_at_inv Hassign) as (n & sth & Hcalc & ->).
  destruct (served_fields env1 s n sth w) as (Hn1 & Hc1 & Hs1 & _).
  unfold current_tree_size.
  rewrite Hn1 in Hnodes. rewrite Hc1 in Hcfg. rewrite Hs1 in Hcalculated.
  rewrite Hs1. split; [exact (assigned_size_fits _ Hlen Hcalc)|].
  destruct (Z.leb_spec 0 (Int32.wrap (tree_size sth))) as [Hwrap|Hwrap].
  - pose proof (@calculation_again (csc w) s n sth (csc w2)
                  Hlen Hwrap Hcalc Hnodes Hcfg Hcalculated) as Hagain.
    exists (served env2 s n sth w2).
    destruct (served_fields env2 s n sth w2) as (_ & _ & Hs2 & Hup & _).
    split; [apply assigns_at_intro, Hagain|].
    split; [exact Hs2|]. split; [apply Hup, Hmaster|].
    rewrite emitted_served, Hmaster. left. reflexivity.
  - rewrite CalculateServingSTH_unfold. unfold calculation.
    rewrite Hcalculated.
    destruct (tally (all_node_states_ (csc w2)) ([], []))
      as [[sths counts]|]; [|reflexivity].
    destruct (Z.leb_spec 0 (Int32.wrap (tree_size sth))); [lia|reflexivity].
Qed.

Lemma recalculation_signals_again_witness :
  (exists w3,
      assigns_at master S5_published 10 w3 /\
      calculated_serving_sth_ (csc w3) = Some sth_B /\
      update_required_ (csc w3) = true /\
      In NotifyAll (emitted S5_published w3)) /\
  CalculateServingSTH master beyond_int_world = Crashed beyond_int_world.
Proof.
  split.
  - pose (w := with_nodes_config_calculated S1_nodes config_2_half None
                 initial_world).
    destruct (@recalculation_signals_again master master w 10
                (final (CalculateServingSTH master w)) S5_published)
      as [_ Hagain].
    + vm_compute. discriminate.
    + split; [reflexivity|]. exists 2. vm_compute. tauto.
    + reflexivity.
    + reflexivity.
    + reflexivity.
    + reflexivity.
    + exact Hagain.
  - pose (w := with_nodes_config_calculated
                 [("A"%string, peer "A" (Some sth_2_31))] config_1_half None
                 initial_world).
    destruct (@recalculation_signals_again master master w 2147483648
                (final (CalculateServingSTH master w)) beyond_int_world)
      as [_ Hcrash].
    + vm_compute. discriminate.
    + split; [vm_compute; reflexivity|]. exists 1. vm_compute. tauto.
    + vm_compute. reflexivity.
    + vm_compute. reflexivity.
    + vm_compute. reflexivity.
    + reflexivity.
    + exact Hcrash.
Defined.

(** C3, as the specification words it, fails in scenario S5: after the
    master has calculated and published the STH of S1 and the publisher
    has cleared [update_required_], a second calculation on unchanged
    peers, configuration and calculated STH does raise a new signal. *)
Lemma second_calculation_signals :
  update_required_ (csc S5_published) = false /\
  updater S5_published = AtWait /\
  In (SetServingSTH sth_B) (trace S5_published) /\
  all_node_states_ (csc S5_published) = S1_nodes /\
  cluster_config_ (csc S5_published) = config_2_half /\
  calculated_serving_sth_ (csc S5_published) = Some sth_B /\
  ~ no_new_signal master S5_published.
Proof.
  repeat (split; [vm_compute; tauto|]).
  intros Hquiet.
  destruct (Hquiet (final (CalculateServingSTH master S5_published)))
    as [Hflag _]; [reflexivity|].
  vm_compute in Hflag. discriminate.
Qed.

(* ------------------------------------------------------------------ *)
(** ** Invariants of operations *)

Section Preserves.
Variable I : World -> Prop.

Lemma preserves_ret A (a : A) : preserves I (ret a).
Proof. intros w H. exact H. Qed.

Lemma preserves_bind A B (m : M A) (k : A -> M B) :
  preserves I m -> (forall a, preserves I (k a)) -> preserves I (bind m k).
Proof.
  intros Hm Hk w H. unfold bind. specialize (Hm w H).
  destruct (m w) as [a w'|w']; simpl in *; [apply Hk, Hm|exact Hm].
Qed.

Lemma preserves_get : preserves I get.
Proof. intros w H. exact H. Qed.

Lemma preserves_check b : preserves I (check b).
Proof. intros w H. unfold check. destruct b; exact H. Qed.

Lemma preserves_when b m : preserves I m -> preserves I (when b m).
Proof. intros Hm. destruct b; [exact Hm|apply preserves_ret]. Qed.

Lemma preserves_modify f :
  (forall w, I w -> I (mkWorld (f (csc w)) (updater w) (trace w))) ->
  preserves I (modify f).
Proof. intros Hf w H. apply Hf, H. Qed.

Lemma preserves_emit e :
  (forall w, I w -> I (mkWorld (csc w) (updater w) (e :: trace w))) ->
  preserves I (emit e).
Proof. intros He w H. apply He, H. Qed.
End Preserves.

(** Splits a sequence of operations into its primitive steps. *)
Ltac step_through :=
  repeat first
    [ apply preserves_ret
    | apply preserves_get
    | apply preserves_check
    | apply preserves_bind; [|intros ?]
    | apply preserves_when
    | match goal with
      | |- preserves _ (match ?x with _ => _ end) => destruct x
      end ].

(* ------------------------------------------------------------------ *)
(** ** The publisher thread *)

Lemma foreign_modify f : foreign (modify f).
Proof. intros pc events. apply preserves_modify. intros w H. exact H. Qed.

Lemma foreign_emit e : updater_event e = false -> foreign (emit e).
Proof.
  intros He pc events. apply preserves_emit. intros w [Hpc Hev].
  split; [exact Hpc|]. simpl. rewrite He. exact Hev.
Qed.

Ltac foreign_steps :=
  intros ? ?; step_through;
  try (apply foreign_modify);
  try (apply foreign_emit; reflexivity).

Lemma foreign_DetermineElectionParticipation :
  foreign DetermineElectionParticipation.
Proof. unfold DetermineElectionParticipation. foreign_steps. Qed.

Lemma foreign_PushLocalNodeState env : foreign (PushLocalNodeState env).
Proof.
  unfold PushLocalNodeState. intros pc events.
  apply preserves_bind; [apply foreign_DetermineElectionParticipation|intros _].
  step_through; apply foreign_emit; reflexivity.
Qed.

Lemma foreign_CalculateServingSTH env : foreign (CalculateServingSTH env).
Proof.
  unfold CalculateServingSTH, ask_is_master.
  intros pc events. apply preserves_bind; [apply preserves_get|intros c].
  destruct (tally _ _) as [[sths counts]|]; [|apply preserves_check].
  apply preserves_bind; [apply preserves_check|intros _].
  destruct (scan _ _ _ _ _) as [[size n]|];
    step_through;
    try (apply foreign_modify);
    try (apply foreign_emit; reflexivity).
Qed.

Lemma foreign_apply_updates updates : foreign (apply_updates updates).
Proof.
  induction updates as [|update rest IH]; intros pc events; simpl.
  - apply preserves_ret.
  - apply preserves_bind; [|intros _; apply IH].
    destruct (exists_ update); [apply foreign_modify|].
    apply preserves_bind; [apply preserves_get|intros c].
    destruct (erase _ _ _) as [erased m].
    apply preserves_bind; [apply foreign_modify|intros _].
    apply preserves_check.
Qed.

Lemma foreign_run_call env call :
  call <> CallUpdaterStep -> foreign (run_call env call).
Proof.
  intros Hcall pc events. destruct call; simpl; try congruence.
  - unfold NewTreeHead.
    apply preserves_bind; [apply preserves_get|intros c].
    apply preserves_bind;
      [destruct (newest_sth _); [apply preserves_check|apply preserves_ret]
      |intros _].
    apply preserves_bind; [apply foreign_modify|intros _].
    apply foreign_PushLocalNodeState.
  - unfold ContiguousTreeSizeUpdated.
    apply preserves_bind; [apply preserves_check|intros _].
    apply preserves_bind; [apply preserves_get|intros c].
    apply preserves_bind; [apply preserves_check|intros _].
    apply preserves_bind; [apply foreign_modify|intros _].
    apply foreign_PushLocalNodeState.
  - unfold SetNodeHostPort.
    apply preserves_bind; [apply foreign_modify|intros _].
    apply foreign_PushLocalNodeState.
  - unfold OnClusterStateUpdated.
    apply preserves_bind; [apply foreign_apply_updates|intros _].
    apply foreign_CalculateServingSTH.
  - unfold OnClusterConfigUpdated. destruct (exists_ update).
    + apply preserves_bind; [apply foreign_modify|intros _].
      apply preserves_bind; [apply foreign_emit; reflexivity|intros _].
      apply foreign_CalculateServingSTH.
    + apply foreign_emit; reflexivity.
  - unfold OnServingSthUpdated.
    apply preserves_bind; [|intros _; apply foreign_DetermineElectionParticipation].
    destruct (exists_ update).
    + apply preserves_bind; [apply foreign_modify|intros _].
      apply foreign_emit; reflexivity.
    + apply preserves_bind; [apply foreign_emit; reflexivity|intros _].
      apply foreign_modify.
  - unfold Destructor_signal_exit.
    apply preserves_bind; [apply foreign_modify|intros _].
    apply foreign_emit; reflexivity.
Qed.

Lemma gating_invariant_foreign A (m : M A) :
  foreign m -> preserves gating_invariant m.
Proof.
  intros Hm w [Hgated Hpc].
  destruct (Hm (updater w) (filter updater_event (trace w)) w) as [Hu Hev];
    [split; reflexivity|].
  split.
  - unfold publisher_gated. rewrite Hev. exact Hgated.
  - intros sth Hat. rewrite Hev. apply (Hpc sth). congruence.
Qed.

Lemma gating_invariant_updater env :
  preserves gating_invariant (ClusterServingSTHUpdater_step env).
Proof.
  intros w [Hgated Hpc]. unfold ClusterServingSTHUpdater_step.
  destruct (updater w) as [|local_sth|local_sth|] eqn:Hupd.
  - destruct (update_required_ (csc w) || exiting_ (csc w));
      [|split; [exact Hgated|intros sth H; simpl in H; congruence]].
    destruct (exiting_ (csc w));
      [split; [exact Hgated|intros sth H; discriminate]|].
    unfold bind, check.
    destruct (update_required_ (csc w));
      [|split; [exact Hgated|intros sth H; simpl in H; congruence]].
    destruct (calculated_serving_sth_ (csc w));
      split; try exact Hgated; intros sth H; simpl in H; congruence.
  - unfold bind, ask_is_master, emit, ret, set_updater. simpl.
    split.
    + exact Hgated.
    + destruct (election_is_master env); intros sth H; simpl in H;
        [|discriminate]. eexists. reflexivity.
  - unfold bind, emit, set_updater. simpl.
    split; [|intros sth H; discriminate].
    destruct (Hpc local_sth eq_refl) as [rest Hrest].
    unfold publisher_gated in *. simpl. rewrite Hrest in *. exact Hgated.
  - split; [exact Hgated|intros sth H; simpl in H; congruence].
Qed.

Lemma gating_invariant_run calls : preserves gating_invariant (run calls).
Proof.
  induction calls as [|[env call] rest IH]; simpl.
  - apply preserves_ret.
  - apply preserves_bind; [|intros _; exact IH].
    destruct call;
      try (apply gating_invariant_foreign, foreign_run_call; discriminate).
    apply gating_invariant_updater.
Qed.

(** C5 -- Publisher gating.  In the trace of every run of the controller
    from its initial state, whatever calls arrive in whatever order and
    whether or not the run ends in a crash, each [SetServingSTH] of the
    publisher thread comes directly after an [IsMaster()] of that thread
    which returned true, with no other event of the publisher between
    them.  And no entry point other than the publisher's loop adds a
    [SetServingSTH] (or a publisher's [IsMaster()]) to the trace. *)
Theorem publisher_gating calls env call w :
  publisher_gated (trace (final (run calls initial_world))) = true /\
  match call with
  | CallUpdaterStep => True
  | _ => filter updater_event (trace (final (run_call env call w)))
         = filter updater_event (trace w)
  end.
Proof.
  split.
  - apply (@gating_invariant_run calls initial_world).
    split; [reflexivity|]. intros sth H. discriminate.
  - destruct call; try exact I;
      match goal with
      | |- filter _ (trace (final (run_call ?e ?c ?w))) = _ =>
          apply (@foreign_run_call e c ltac:(discriminate)
                   (updater w) (filter updater_event (trace w)) w);
          split; reflexivity
      end.
Qed.

(* ------------------------------------------------------------------ *)
(** ** [double] arithmetic on node counts *)

Module DoubleFacts.












End DoubleFacts.

(* ------------------------------------------------------------------ *)
(** ** Sizes that are keys of the maps *)

Lemma in_total_le_where p k n (m : CountMap) :
  Forall (fun b => 1 <= snd b) m -> In (k, n) m -> p k = true ->
  n <= total p m.
Proof.
  induction 1 as [|[k' n'] m Hn Hall IH]; simpl; [tauto|].
  pose proof (total_nonneg p Hall). simpl in Hn.
  intros [Heq|Hin] Hp.
  - injection Heq as -> ->. rewrite Hp. lia.
  - specialize (IH Hin Hp). destruct (p k'); lia.
Qed.

Lemma total_pos_key p (m : CountMap) :
  0 < total p m -> exists k n, In (k, n) m /\ p k = true.
Proof.
  induction m as [|[k n] m IH]; simpl; [lia|].
  destruct (p k) eqn:Hp.
  - intros _. exists k, n. split; [left; reflexivity|exact Hp].
  - intros H. destruct IH as (k' & n' & Hin & Hp'); [lia|].
    exists k', n'. split; [right; exact Hin|exact Hp'].
Qed.

Lemma peers_where_pos p (nodes : NodeMap) sth :
  peer_sth nodes sth -> p (tree_size sth) = true -> 1 <= peers_where p nodes.
Proof.
  intros (id & node & Hin & Hsth) Hp. unfold peers_where.
  assert (Hf : In (id, node) (filter (has_sth_where p) nodes)).
  { apply filter_In. split; [exact Hin|].
    unfold has_sth_where. simpl. rewrite Hsth. exact Hp. }
  destruct (filter (has_sth_where p) nodes); [destruct Hf|simpl; lia].
Qed.

Lemma peers_where_pos_inv p (nodes : NodeMap) :
  0 < peers_where p nodes ->
  exists sth, peer_sth nodes sth /\ p (tree_size sth) = true.
Proof.
  unfold peers_where. intros H.
  destruct (filter (has_sth_where p) nodes) as [|[id node] l] eqn:Hf;
    [simpl in H; lia|].
  assert (Hin : In (id, node) (filter (has_sth_where p) nodes))
    by (rewrite Hf; left; reflexivity).
  apply filter_In in Hin. destruct Hin as [Hin Hp].
  unfold has_sth_where in Hp. simpl in Hp.
  destruct (newest_sth node) as [sth|] eqn:Hsth; [|discriminate].
  exists sth. split; [exists id, node; split; assumption|exact Hp].
Qed.

(** Every size some peer has is a key of [num_nodes_by_sth_size], and
    the other way round. *)
Lemma counts_key_of_peer nodes counts sth :
  counts_of nodes counts -> peer_sth nodes sth ->
  exists n, In (tree_size sth, n) counts.
Proof.
  intros (_ & _ & _ & Htot) Hpeer.
  pose proof (peers_where_pos (fun k => k =? tree_size sth) Hpeer
                (Z.eqb_refl _)) as Hone.
  rewrite <- Htot in Hone.
  destruct (@total_pos_key (fun k => k =? tree_size sth) counts)
    as (k & n & Hin & Hk); [lia|].
  apply Z.eqb_eq in Hk. subst k. exists n. exact Hin.
Qed.

Lemma peer_of_counts_key nodes counts k n :
  counts_of nodes counts -> In (k, n) counts ->
  exists sth, peer_sth nodes sth /\ tree_size sth = k.
Proof.
  intros (_ & Hpos & _ & Htot) Hin.
  pose proof (@in_total_le_where (fun k' => k' =? k) k n counts Hpos Hin
                (Z.eqb_refl _)) as Hle.
  rewrite Forall_forall in Hpos. specialize (Hpos _ Hin). simpl in Hpos.
  rewrite Htot in Hle.
  destruct (@peers_where_pos_inv (fun k' => k' =? k) nodes) as (sth & Hp & Hk);
    [lia|].
  apply Z.eqb_eq in Hk. exists sth. split; assumption.
Qed.

(** Where some peer of a size has a non-zero timestamp, the entry of
    [sth_by_size] is a peer STH of that size. *)
Lemma sth_at_peer nodes sths sth :
  sths_of nodes sths -> peer_sth nodes sth -> (0 < timestamp sth)%N ->
  peer_sth nodes (sth_at sths (tree_size sth)) /\
  tree_size (sth_at sths (tree_size sth)) = tree_size sth.
Proof.
  intros (_ & Hentry & Hmax) Hpeer Hts.
  specialize (Hmax _ Hpeer).
  destruct (Hentry (tree_size sth)) as [Hd|(Hp & Hk & _)].
  - rewrite Hd in Hmax. simpl in Hmax. lia.
  - split; assumption.
Qed.


(* ------------------------------------------------------------------ *)
(** ** The calculation under the default configuration *)


(* ------------------------------------------------------------------ *)
(** ** The cold state is kept *)

Lemma upsert_Forall K V (cmp : K -> K -> comparison) (P : K * V -> Prop) k v m :
  Forall P m -> P (k, v) -> Forall P (upsert cmp k (fun _ => v) m).
Proof.
  intros Hm Hv. induction Hm as [|[k' v'] m Hk' Hm IH]; simpl.
  - constructor; [exact Hv|constructor].
  - destruct (cmp k k'); repeat constructor; assumption.
Qed.

Lemma erase_Forall K V (cmp : K -> K -> comparison) (P : K * V -> Prop) k m :
  Forall P m -> Forall P (snd (erase cmp k m)).
Proof.
  induction 1 as [|[k' v'] m Hk' Hm IH]; simpl; [constructor|].
  destruct (cmp k k'); try exact Hm;
    destruct (erase cmp k m) as [n r]; simpl in *; constructor; assumption.
Qed.

Lemma tally_no_sth nodes maps :
  Forall (fun node : string * ClusterNodeState => newest_sth (snd node) = None)
    nodes ->
  tally nodes maps = Some maps.
Proof.
  induction 1 as [|[id node] nodes Hnode _ IH]; simpl; [reflexivity|].
  simpl in Hnode. unfold tally_node. rewrite Hnode. exact IH.
Qed.









(** [apply_updates] touches neither the configuration nor the calculated
    STH. *)
Lemma apply_updates_frame updates cfg calculated :
  preserves (fun w => cluster_config_ (csc w) = cfg /\
                      calculated_serving_sth_ (csc w) = calculated)
    (apply_updates updates).
Proof.
  induction updates as [|update rest IH]; simpl.
  - apply preserves_ret.
  - apply preserves_bind; [|intros _; exact IH].
    destruct (exists_ update).
    + apply preserves_modify. intros w H. exact H.
    + apply preserves_bind; [apply preserves_get|intros c].
      destruct (erase _ _ _) as [erased m].
      apply preserves_bind; [|intros _; apply preserves_check].
      apply preserves_modify. intros w H. exact H.
Qed.




(* ------------------------------------------------------------------ *)
(** ** The calculated size over time *)

(** Where the sizes fit an [int] and every peer STH has a non-zero
    timestamp, an assignment does not go below the previous calculated
    size. *)
Lemma calculated_size_kept env w s w' previous :
  Z.of_nat (List.length (all_node_states_ (csc w))) <= Int32.max_signed ->
  calculated_serving_sth_ (csc w) = Some previous ->
  0 <= tree_size previous <= Int32.max_signed ->
  (forall sth, peer_sth (all_node_states_ (csc w)) sth ->
               (0 < timestamp sth)%N) ->
  assigns_at env w s w' ->
  exists sth,
    calculated_serving_sth_ (csc w') = Some sth /\
    tree_size sth = s /\
    tree_size previous <= tree_size sth.
Proof.
  intros Hlen Hprev Hrange Hts Hassign.
  destruct (assigns_at_inv Hassign) as (n & sth & Hcalc & ->).
  destruct (calculation_serve _ Hlen Hcalc)
    as (sths & counts & _ & Hc & Hs & -> & _ & _ & _ & _ & Hfloor & k & Hin).
  rewrite Hprev, wrap_in_range in Hfloor
    by (unfold Int32.min_signed, Int32.max_signed, Int32.half_modulus in *; lia).
  destruct (@peer_of_counts_key _ _ _ _ Hc Hin) as (sth & Hpeer & <-).
  destruct (sth_at_peer Hs Hpeer (Hts _ Hpeer)) as [_ Hsize].
  exists (sth_at sths (tree_size sth)).
  destruct (served_fields env (tree_size sth) n (sth_at sths (tree_size sth)) w)
    as (_ & _ & Hcalculated & _).
  split; [exact Hcalculated|]. split; [exact Hsize|]. lia.
Qed.

(** C1 -- The code lets the calculated tree size go down, against its own
    comment that the new serving STH is "not smaller than the current
    serving STH".  (1) The current size is held in an [int]: from a
    calculated STH of size 2^32 + 5 the floor of the descent is 5, and
    when the peer at that size leaves and a peer at size 7 remains, the
    calculated size drops to 7.  (2) An entry of [sth_by_size] that no
    timestamp above 0 has replaced is the default-constructed STH: from
    a calculated size of 10, a peer STH of size 12 and timestamp 0 makes
    the calculated size 0. *)
Theorem calculated_size_regresses :
  (exists w1 w2,
      run large_calls initial_world = Done tt w1 /\
      run lagging_calls w1 = Done tt w2 /\
      calculated_serving_sth_ (csc w1) = Some sth_large /\
      calculated_serving_sth_ (csc w2) = Some sth_lagging /\
      tree_size sth_lagging < tree_size sth_large) /\
  (exists w1 w2,
      run stamped_calls initial_world = Done tt w1 /\
      run unstamped_calls w1 = Done tt w2 /\
      calculated_serving_sth_ (csc w1) = Some sth_A /\
      calculated_serving_sth_ (csc w2) = Some default_sth /\
      tree_size default_sth < tree_size sth_A).
Proof.
  split.
  - exists (final (run large_calls initial_world)),
      (final (run (large_calls ++ lagging_calls) initial_world)).
    repeat (split; [vm_compute; reflexivity|]). reflexivity.
  - exists (final (run stamped_calls initial_world)),
      (final (run (stamped_calls ++ unstamped_calls) initial_world)).
    repeat (split; [vm_compute; reflexivity|]). reflexivity.
Qed.

(* ------------------------------------------------------------------ *)
(** ** Every entry point writes the fields in its own ways only *)

Lemma changes_trans may c0 c1 c2 :
  changes may c0 c1 -> changes may c1 c2 -> changes may c0 c2.
Proof.
  intros H01 H12. induction H12 as [|c1 c c2 k H1c IH Hk Hc]; [exact H01|].
  apply changes_more with (c1 := c) (k := k); auto.
Qed.

Lemma changes_weaken (may may' : Kind -> bool) c0 c1 :
  (forall k, may k = true -> may' k = true) ->
  changes may c0 c1 -> changes may' c0 c1.
Proof.
  intros Hsub. induction 1 as [|c c1 c2 k H IH Hk Hc]; [constructor|].
  apply changes_more with (c1 := c1) (k := k); auto.
Qed.

Lemma changes_invariant may (P : Controller -> Prop) :
  (forall k c1 c2, may k = true -> change k c1 c2 -> P c1 -> P c2) ->
  forall c0 c1, changes may c0 c1 -> P c0 -> P c1.
Proof.
  intros Hstep c0 c1. induction 1 as [|c c1 c2 k H IH Hk Hc]; [tauto|].
  intros H0. eapply Hstep; eauto.
Qed.

Lemma reached_modify may c0 k f :
  may k = true -> (forall c, change k c (f c)) ->
  preserves (reached may c0) (modify f).
Proof.
  intros Hk Hf. apply preserves_modify. intros w H.
  unfold reached in *. simpl. eapply changes_more; eauto.
Qed.

Lemma reached_emit may c0 e : preserves (reached may c0) (emit e).
Proof. apply preserves_emit. intros w H. exact H. Qed.

Lemma reached_DetermineElectionParticipation may c0 :
  preserves (reached may c0) DetermineElectionParticipation.
Proof.
  intros w H. rewrite DetermineElectionParticipation_unfold. exact H.
Qed.

Lemma reached_PushLocalNodeState may c0 env :
  preserves (reached may c0) (PushLocalNodeState env).
Proof.
  intros w H. rewrite PushLocalNodeState_unfold. exact H.
Qed.

Lemma reached_CalculateServingSTH may c0 env :
  may KCalculated = true ->
  (election_is_master env = true -> may KSignal = true) ->
  preserves (reached may c0) (CalculateServingSTH env).
Proof.
  intros Hcalc Hsignal w H. rewrite CalculateServingSTH_unfold.
  destruct (calculation (csc w)) as [| |size n sth]; try exact H.
  unfold served, reached in *.
  assert (H1 : changes may c0 (set_calculated_serving_sth (Some sth) (csc w))).
  { eapply changes_more; [exact H|exact Hcalc|constructor]. }
  destruct (election_is_master env); simpl; [|exact H1].
  eapply changes_more; [exact H1|auto|]. constructor. simpl. discriminate.
Qed.

Lemma reached_apply_updates may c0 updates :
  may KPeers = true -> preserves (reached may c0) (apply_updates updates).
Proof.
  intros Hpeers. induction updates as [|update rest IH]; simpl.
  - apply preserves_ret.
  - apply preserves_bind; [|intros _; exact IH].
    destruct (exists_ update).
    + apply reached_modify with (k := KPeers); [exact Hpeers|].
      intros c. apply (change_peer_put c (entry update)).
    + intros w H. unfold bind, get.
      pose proof (change_peer_erase (csc w) (node_id (entry update))) as Hc.
      destruct (erase String.compare (node_id (entry update))
                  (all_node_states_ (csc w))) as [erased m].
      simpl in *. unfold check.
      assert (H1 : changes may c0 (set_all_node_states m (csc w)))
        by (eapply changes_more; eauto).
      destruct (erased =? 1); exact H1.
Qed.

Lemma NewTreeHead_unfold env sth w :
  NewTreeHead env sth w
  = if older_than_newest sth (csc w) then Crashed w
    else
      let c := set_local_node_state
                 (with_newest_sth sth (local_node_state_ (csc w))) (csc w) in
      Done tt (mkWorld c (updater w) (push_events env c ++ trace w)).
Proof.
  unfold older_than_newest, NewTreeHead, bind at 1 2 3, get, check, ret, modify.
  destruct (newest_sth (local_node_state_ (csc w))) as [prev|].
  - destruct (N.ltb_spec (timestamp sth) (timestamp prev));
      destruct (N.leb_spec (timestamp prev) (timestamp sth)); try lia;
      [reflexivity|].
    rewrite PushLocalNodeState_unfold. reflexivity.
  - rewrite PushLocalNodeState_unfold. reflexivity.
Qed.

Lemma ContiguousTreeSizeUpdated_unfold env n w :
  ContiguousTreeSizeUpdated env n w
  = if (0 <=? n) && (contiguous_tree_size (local_node_state_ (csc w)) <=? n)
    then
      let c := set_local_node_state
                 (with_contiguous_tree_size n (local_node_state_ (csc w)))
                 (csc w) in
      Done tt (mkWorld c (updater w) (push_events env c ++ trace w))
    else Crashed w.
Proof.
  unfold ContiguousTreeSizeUpdated, bind at 1 2 3 4, get, check, modify.
  destruct (0 <=? n); [|reflexivity]. simpl.
  destruct (contiguous_tree_size (local_node_state_ (csc w)) <=? n);
    [|reflexivity].
  rewrite PushLocalNodeState_unfold. reflexivity.
Qed.

Lemma SetNodeHostPort_unfold env host port w :
  SetNodeHostPort env host port w
  = let c := set_local_node_state
               (with_host_port host port (local_node_state_ (csc w))) (csc w) in
    Done tt (mkWorld c (updater w) (push_events env c ++ trace w)).
Proof.
  unfold SetNodeHostPort, bind, modify.
  rewrite PushLocalNodeState_unfold. reflexivity.
Qed.

Lemma reached_run_call env call c0 :
  preserves (reached (may_change env call) c0) (run_call env call).
Proof.
  destruct call; simpl run_call.
  - intros w H. rewrite NewTreeHead_unfold.
    destruct (older_than_newest sth (csc w)) eqn:Hold; [exact H|].
    unfold reached in *. simpl.
    apply changes_more with (c1 := csc w) (k := KLocal);
      [exact H|reflexivity|]. constructor. exact Hold.
  - intros w H. rewrite ContiguousTreeSizeUpdated_unfold.
    destruct (Z.leb_spec 0 new_contiguous_tree_size); [|exact H].
    destruct (Z.leb_spec (contiguous_tree_size (local_node_state_ (csc w)))
                new_contiguous_tree_size); [|exact H].
    unfold reached in *. simpl.
    apply changes_more with (c1 := csc w) (k := KLocal);
      [exact H|reflexivity|]. constructor; assumption.
  - intros w H. rewrite SetNodeHostPort_unfold.
    unfold reached in *. simpl.
    apply changes_more with (c1 := csc w) (k := KLocal);
      [exact H|reflexivity|]. constructor.
  - unfold OnClusterStateUpdated.
    apply preserves_bind; [apply reached_apply_updates; reflexivity|intros _].
    apply reached_CalculateServingSTH; [reflexivity|].
    simpl. intros ->. reflexivity.
  - unfold OnClusterConfigUpdated.
    destruct (exists_ update) eqn:He; [|apply reached_emit].
    apply preserves_bind;
      [apply reached_modify with (k := KConfig);
       [simpl; exact He|intros c; constructor]|intros _].
    apply preserves_bind; [apply reached_emit|intros _].
    apply reached_CalculateServingSTH; simpl; rewrite He; [reflexivity|].
    intros ->. reflexivity.
  - unfold OnServingSthUpdated.
    apply preserves_bind;
      [|intros _; apply reached_DetermineElectionParticipation].
    destruct (exists_ update).
    + apply preserves_bind; [|intros _; apply reached_emit].
      apply reached_modify with (k := KActual); [reflexivity|].
      intros c; constructor.
    + apply preserves_bind; [apply reached_emit|intros _].
      apply reached_modify with (k := KActual); [reflexivity|].
      intros c; constructor.
  - intros w H. unfold ClusterServingSTHUpdater_step.
    destruct (updater w); try exact H.
    destruct (update_required_ (csc w) || exiting_ (csc w)); [|exact H].
    destruct (exiting_ (csc w)); [exact H|].
    unfold bind, check. destruct (update_required_ (csc w)); [|exact H].
    destruct (calculated_serving_sth_ (csc w)); [|exact H].
    unfold reached in *. simpl.
    apply changes_more with (c1 := csc w) (k := KTaken);
      [exact H|reflexivity|]. constructor.
  - unfold Destructor_signal_exit.
    apply preserves_bind; [|intros _; apply reached_emit].
    apply reached_modify with (k := KExiting); [reflexivity|].
    intros c; constructor.
Qed.

Lemma run_call_changes env call w :
  changes (may_change env call) (csc w) (csc (final (run_call env call w))).
Proof. apply (@reached_run_call env call (csc w) w). constructor. Qed.

Lemma run_changes calls w :
  changes any_kind (csc w) (csc (final (run calls w))).
Proof.
  revert w. induction calls as [|[env call] rest IH]; intros w; simpl.
  - constructor.
  - unfold bind.
    pose proof (run_call_changes env call w) as Hcall.
    destruct (run_call env call w) as [[] w1|w1]; simpl in *.
    + eapply changes_trans; [|apply IH].
      eapply changes_weaken; [|exact Hcall]. reflexivity.
    + eapply changes_weaken; [|exact Hcall]. reflexivity.
Qed.

(* ------------------------------------------------------------------ *)
(** ** Local progress never goes back *)

(** X1 -- Over every run of the controller, from any state and whether or
    not the run ends in a crash, the timestamp of the recorded newest
    local STH does not decrease, and a recorded STH is never dropped. *)
Theorem newest_sth_timestamp_never_decreases calls w :
  match newest_sth (local_node_state_ (csc w)) with
  | Some before =>
      exists after,
        newest_sth (local_node_state_ (csc (final (run calls w)))) = Some after /\
        (timestamp before <= timestamp after)%N
  | None => True
  end.
Proof.
  destruct (newest_sth (local_node_state_ (csc w))) as [before|] eqn:Hw;
    [|exact I].
  apply (@changes_invariant any_kind
           (fun c => exists after,
                newest_sth (local_node_state_ c) = Some after /\
                (timestamp before <= timestamp after)%N))
    with (c0 := csc w); [|apply run_changes|exists before; split; [exact Hw|lia]].
  intros k c1 c2 _ Hc (s & Hs & Hle).
  destruct Hc; simpl; try (exists s; split; [exact Hs|exact Hle]).
  unfold older_than_newest in H. rewrite Hs in H.
  apply N.ltb_ge in H. exists sth. split; [reflexivity|lia].
Qed.

(** X2 -- Over every run of the controller, the local contiguous tree
    size does not decrease. *)
Theorem contiguous_tree_size_never_decreases calls w :
  contiguous_tree_size (local_node_state_ (csc w))
  <= contiguous_tree_size (local_node_state_ (csc (final (run calls w)))).
Proof.
  apply (@changes_invariant any_kind
           (fun c => contiguous_tree_size (local_node_state_ (csc w))
                     <= contiguous_tree_size (local_node_state_ c)))
    with (c0 := csc w); [|apply run_changes|lia].
  intros k c1 c2 _ Hc Hle. destruct Hc; simpl; try exact Hle. lia.
Qed.

(* ------------------------------------------------------------------ *)
(** ** The calculated STH and the publisher's checks *)

(** X4 -- Once a serving STH has been calculated, [GetCalculatedServingSTH]
    never answers [NOT_FOUND] again: no call of any entry point resets
    [calculated_serving_sth_]. *)
Theorem calculated_sth_never_unset calls w :
  match GetCalculatedServingSTH (csc w) with
  | Some _ => GetCalculatedServingSTH (csc (final (run calls w))) <> None
  | None => True
  end.
Proof.
  unfold GetCalculatedServingSTH.
  destruct (calculated_serving_sth_ (csc w)) as [sth|] eqn:Hw; [|exact I].
  apply (@changes_invariant any_kind
           (fun c => calculated_serving_sth_ c <> None))
    with (c0 := csc w); [|apply run_changes|congruence].
  intros k c1 c2 _ Hc H. destruct Hc; simpl; try exact H. discriminate.
Qed.

Lemma pending_has_sth_run calls w :
  pending_has_sth (csc w) -> pending_has_sth (csc (final (run calls w))).
Proof.
  apply (@changes_invariant any_kind pending_has_sth); [|apply run_changes].
  intros k c1 c2 _ Hc H. unfold pending_has_sth in *.
  destruct Hc; simpl; try exact H; try discriminate.
  intros _. assumption.
Qed.

(** X5 -- The publisher's checks never fire: in whatever state a run from
    the initial state has left the controller, a step of the publisher
    thread returns.  [update_required_] is only ever set after
    [calculated_serving_sth_] has been, so [CHECK_NOTNULL] finds it. *)
Theorem publisher_never_crashes calls env :
  exists w',
    ClusterServingSTHUpdater_step env (final (run calls initial_world))
    = Done tt w'.
Proof.
  pose proof (@pending_has_sth_run calls initial_world) as Hinv.
  assert (H0 : pending_has_sth (csc initial_world))
    by (intros H; discriminate).
  specialize (Hinv H0). clear H0.
  set (w := final (run calls initial_world)) in *.
  unfold ClusterServingSTHUpdater_step, pending_has_sth in *.
  destruct (updater w); try (eexists; reflexivity).
  destruct (update_required_ (csc w)) eqn:Hreq; simpl.
  - destruct (exiting_ (csc w)); [eexists; reflexivity|].
    unfold bind, check.
    destruct (calculated_serving_sth_ (csc w));
      [eexists; reflexivity|]. exfalso. apply Hinv; reflexivity.
  - destruct (exiting_ (csc w)); eexists; reflexivity.
Qed.

(* ------------------------------------------------------------------ *)
(** ** What the publisher thread does and does not do *)

Lemma run_app calls1 calls2 w :
  run (calls1 ++ calls2) w
  = match run calls1 w with
    | Done _ w1 => run calls2 w1
    | Crashed w1 => Crashed w1
    end.
Proof.
  revert w. induction calls1 as [|[env call] rest IH]; intros w; simpl;
    [reflexivity|].
  unfold bind. destruct (run_call env call w) as [[] w1|w1]; [apply IH|reflexivity].
Qed.

Lemma foreign_run calls :
  forallb (fun call => negb (is_updater_step call)) calls = true ->
  foreign (run calls).
Proof.
  induction calls as [|[env call] rest IH]; simpl; intros Hall pc events.
  - apply preserves_ret.
  - apply andb_prop in Hall. destruct Hall as [Hcall Hrest].
    apply preserves_bind; [|intros _; apply IH, Hrest].
    apply foreign_run_call. intros ->. discriminate.
Qed.

Lemma exiting_kept may c0 c1 :
  changes may c0 c1 -> exiting_ c0 = true -> exiting_ c1 = true.
Proof.
  apply (@changes_invariant may (fun c => exiting_ c = true)).
  intros k c c' _ Hc H. destruct Hc; simpl; try exact H. reflexivity.
Qed.

Lemma foreign_call_leaves_publisher env call w :
  is_updater_step (env, call) = false ->
  updater (final (run_call env call w)) = updater w /\
  filter updater_event (trace (final (run_call env call w)))
  = filter updater_event (trace w).
Proof.
  intros Hcall.
  apply (@foreign_run_call env call); [intros ->; discriminate|].
  split; reflexivity.
Qed.

Lemma no_publication_after_exit_call env call w :
  exiting_ (csc w) = true -> publisher_idle w ->
  exiting_ (csc (final (run_call env call w))) = true /\
  publisher_idle (final (run_call env call w)) /\
  filter updater_event (trace (final (run_call env call w)))
  = filter updater_event (trace w).
Proof.
  intros Hexit Hidle.
  split; [exact (exiting_kept (run_call_changes env call w) Hexit)|].
  destruct (is_updater_step (env, call)) eqn:Hcall.
  - destruct call; try discriminate.
    simpl. unfold ClusterServingSTHUpdater_step.
    destruct Hidle as [Hat | Hat]; rewrite Hat.
    + rewrite Hexit, orb_true_r. simpl. split; [right|]; reflexivity.
    + simpl. split; [right; exact Hat|reflexivity].
  - destruct (@foreign_call_leaves_publisher env call w Hcall) as [Hpc Hev].
    split; [unfold publisher_idle in *; rewrite Hpc; exact Hidle|exact Hev].
Qed.

(** X6 -- After shutdown has been signalled while the publisher thread is
    blocked in [wait] (or has already returned), no run of the controller
    makes the publisher ask the election or write a serving STH, whether
    or not an update is pending: the publisher only returns. *)
Theorem no_publication_after_exit calls w :
  exiting_ (csc w) = true -> publisher_idle w ->
  exiting_ (csc (final (run calls w))) = true /\
  publisher_idle (final (run calls w)) /\
  filter updater_event (trace (final (run calls w)))
  = filter updater_event (trace w).
Proof.
  revert w. induction calls as [|[env call] rest IH]; intros w Hexit Hidle.
  - simpl. repeat split; assumption.
  - destruct (@no_publication_after_exit_call env call w Hexit Hidle)
      as (Hexit1 & Hidle1 & Hev1).
    simpl run. unfold bind.
    destruct (run_call env call w) as [[] w1|w1]; simpl in *.
    + destruct (IH w1 Hexit1 Hidle1) as (H1 & H2 & H3).
      repeat split; [exact H1|exact H2|congruence].
    + repeat split; assumption.
Qed.

Lemma no_publication_after_exit_witness :
  update_required_ (csc S6_exiting) = true /\
  exiting_ (csc (final (run S5_calls S6_exiting))) = true /\
  publisher_idle (final (run S5_calls S6_exiting)) /\
  filter updater_event (trace (final (run S5_calls S6_exiting)))
  = filter updater_event (trace S6_exiting).
Proof.
  split; [reflexivity|].
  apply (@no_publication_after_exit S5_calls S6_exiting).
  - reflexivity.
  - left. reflexivity.
Defined.

Lemma signal_needs_master env call :
  election_is_master env = false -> may_change env call KSignal = false.
Proof.
  intros H. destruct call; simpl; try reflexivity; rewrite H;
    [reflexivity|apply andb_false_r].
Qed.

Lemma never_master_call env call w :
  election_is_master env = false ->
  update_required_ (csc w) = false -> publisher_idle w ->
  update_required_ (csc (final (run_call env call w))) = false /\
  publisher_idle (final (run_call env call w)) /\
  filter updater_event (trace (final (run_call env call w)))
  = filter updater_event (trace w).
Proof.
  intros Hmaster Hreq Hidle. split.
  - apply (@changes_invariant (may_change env call)
             (fun c => update_required_ c = false))
      with (c0 := csc w); [|apply run_call_changes|exact Hreq].
    intros k c1 c2 Hk Hc H. destruct Hc; simpl; try exact H; try reflexivity.
    rewrite (@signal_needs_master env call Hmaster) in Hk. discriminate.
  - destruct (is_updater_step (env, call)) eqn:Hcall.
    + destruct call; try discriminate.
      simpl. unfold ClusterServingSTHUpdater_step.
      destruct Hidle as [Hat | Hat]; rewrite Hat.
      * rewrite Hreq. simpl.
        destruct (exiting_ (csc w)); simpl;
          (split; [|reflexivity]); [right; reflexivity|left; exact Hat].
      * simpl. split; [right; exact Hat|reflexivity].
    + destruct (@foreign_call_leaves_publisher env call w Hcall) as [Hpc Hev].
      split; [unfold publisher_idle in *; rewrite Hpc; exact Hidle|exact Hev].
Qed.

(** X8 -- A node that the election never reports as master never
    publishes: in every run from the initial state in which each
    [IsMaster()] answers false, [update_required_] stays unset and the
    publisher thread never leaves its [wait] except to return, so it
    makes no [SetServingSTH] call (and asks the election nothing). *)
Theorem never_master_never_publishes calls :
  forallb not_master calls = true ->
  update_required_ (csc (final (run calls initial_world))) = false /\
  publisher_idle (final (run calls initial_world)) /\
  filter updater_event (trace (final (run calls initial_world))) = [].
Proof.
  assert (Hgen : forall calls w,
             forallb not_master calls = true ->
             update_required_ (csc w) = false -> publisher_idle w ->
             update_required_ (csc (final (run calls w))) = false /\
             publisher_idle (final (run calls w)) /\
             filter updater_event (trace (final (run calls w)))
             = filter updater_event (trace w)).
  { clear calls. induction calls as [|[env call] rest IH];
      intros w Hall Hreq Hidle.
    - simpl. repeat split; assumption.
    - simpl in Hall. apply andb_prop in Hall. destruct Hall as [Hcall Hrest].
      unfold not_master in Hcall. simpl in Hcall.
      apply negb_true_iff in Hcall.
      destruct (@never_master_call env call w Hcall Hreq Hidle) as (H1 & H2 & H3).
      simpl run. unfold bind.
      destruct (run_call env call w) as [[] w1|w1]; simpl in *.
      + destruct (IH w1 Hrest H1 H2) as (H4 & H5 & H6).
        repeat split; [exact H4|exact H5|congruence].
      + repeat split; assumption. }
  intros Hall. apply Hgen; [exact Hall|reflexivity|left; reflexivity].
Qed.

Lemma never_master_never_publishes_witness :
  calculated_serving_sth_
    (csc (final (run (S1_calls ++ [(follower, CallUpdaterStep)]) initial_world)))
  = Some sth_B /\
  update_required_
    (csc (final (run (S1_calls ++ [(follower, CallUpdaterStep)]) initial_world)))
  = false /\
  publisher_idle
    (final (run (S1_calls ++ [(follower, CallUpdaterStep)]) initial_world)) /\
  filter updater_event
    (trace (final (run (S1_calls ++ [(follower, CallUpdaterStep)])
                     initial_world))) = [].
Proof.
  split; [reflexivity|].
  apply (@never_master_never_publishes
           (S1_calls ++ [(follower, CallUpdaterStep)])).
  reflexivity.
Defined.

Lemma run_Done_app calls1 calls2 w w' :
  run (calls1 ++ calls2) w = Done tt w' ->
  exists w1, run calls1 w = Done tt w1 /\ run calls2 w1 = Done tt w'.
Proof.
  rewrite run_app. destruct (run calls1 w) as [[] w1|w1]; [|discriminate].
  intros H. exists w1. split; [reflexivity|exact H].
Qed.

Lemma run_Done_cons env call rest w w' :
  run ((env, call) :: rest) w = Done tt w' ->
  exists w1, run_call env call w = Done tt w1 /\ run rest w1 = Done tt w'.
Proof.
  simpl. unfold bind. destruct (run_call env call w) as [[] w1|w1];
    [|discriminate].
  intros H. exists w1. split; [reflexivity|exact H].
Qed.

(** X7 -- The publisher writes the STH it copied under the mutex.  From a
    waiting publisher with an update pending and [sth] calculated: when
    the publisher wakes, the election answers that the node is master,
    and the publisher gets to its write, it writes [sth] and is back in
    [wait], whatever calls of other threads fall between its three steps
    (even ones that replace [calculated_serving_sth_]). *)
Theorem publisher_writes_its_copy env1 env2 env3 calls1 calls2 w sth w' :
  updater w = AtWait ->
  update_required_ (csc w) = true ->
  exiting_ (csc w) = false ->
  calculated_serving_sth_ (csc w) = Some sth ->
  forallb (fun call => negb (is_updater_step call)) calls1 = true ->
  forallb (fun call => negb (is_updater_step call)) calls2 = true ->
  election_is_master env2 = true ->
  run ((env1, CallUpdaterStep) :: calls1
         ++ (env2, CallUpdaterStep) :: calls2
         ++ [(env3, CallUpdaterStep)]) w = Done tt w' ->
  updater w' = AtWait /\
  filter updater_event (trace w')
  = SetServingSTH sth :: IsMaster FromUpdater true
      :: filter updater_event (trace w).
Proof.
  intros Hat Hreq Hexit Hcalc Hc1 Hc2 Hmaster Hrun.
  apply run_Done_cons in Hrun. destruct Hrun as (w1 & Hstep1 & Hrun).
  apply run_Done_app in Hrun. destruct Hrun as (w2 & Hrun1 & Hrun).
  apply run_Done_cons in Hrun. destruct Hrun as (w3 & Hstep2 & Hrun).
  apply run_Done_app in Hrun. destruct Hrun as (w4 & Hrun2 & Hrun).
  apply run_Done_cons in Hrun. destruct Hrun as (w5 & Hstep3 & Hrun).
  simpl in Hrun. injection Hrun as <-.
  (* the locked section takes the copy *)
  simpl in Hstep1. unfold ClusterServingSTHUpdater_step in Hstep1.
  rewrite Hat, Hreq, Hexit, Hcalc in Hstep1. simpl in Hstep1.
  unfold bind, check in Hstep1. simpl in Hstep1.
  injection Hstep1 as <-.
  (* other threads *)
  pose proof (@foreign_run calls1 Hc1 (AtIsMaster sth)
                (filter updater_event (trace w))
                (mkWorld (set_update_required false (csc w)) (AtIsMaster sth)
                   (trace w))
                (conj eq_refl eq_refl)) as H2.
  rewrite Hrun1 in H2. simpl in H2. destruct H2 as [Hpc2 Hev2].
  (* the election answers *)
  simpl in Hstep2. unfold ClusterServingSTHUpdater_step in Hstep2.
  rewrite Hpc2 in Hstep2. unfold bind, ask_is_master, emit, ret, set_updater
    in Hstep2. rewrite Hmaster in Hstep2. simpl in Hstep2.
  injection Hstep2 as <-.
  pose proof (@foreign_run calls2 Hc2 (AtSetServingSTH sth)
                (IsMaster FromUpdater true :: filter updater_event (trace w))
                (mkWorld (csc w2) (AtSetServingSTH sth)
                   (IsMaster FromUpdater true :: trace w2))
                (conj eq_refl
                   (f_equal (cons (IsMaster FromUpdater true)) Hev2)))
    as H4.
  rewrite Hrun2 in H4. simpl in H4. destruct H4 as [Hpc4 Hev4].
  (* the write *)
  simpl in Hstep3. unfold ClusterServingSTHUpdater_step in Hstep3.
  rewrite Hpc4 in Hstep3. unfold bind, emit, set_updater in Hstep3.
  simpl in Hstep3. injection Hstep3 as <-.
  simpl. split; [reflexivity|]. rewrite Hev4. reflexivity.
Qed.

Lemma publisher_writes_its_copy_witness :
  calculated_serving_sth_
    (csc (final (run ((master, CallUpdaterStep) :: newer_batch
                        ++ (master, CallUpdaterStep) :: []
                        ++ [(master, CallUpdaterStep)]) S5_signalled)))
  = Some sth_newer /\
  updater (final (run ((master, CallUpdaterStep) :: newer_batch
                         ++ (master, CallUpdaterStep) :: []
                         ++ [(master, CallUpdaterStep)]) S5_signalled))
  = AtWait /\
  filter updater_event
    (trace (final (run ((master, CallUpdaterStep) :: newer_batch
                          ++ (master, CallUpdaterStep) :: []
                          ++ [(master, CallUpdaterStep)]) S5_signalled)))
  = SetServingSTH sth_B :: IsMaster FromUpdater true
      :: filter updater_event (trace S5_signalled).
Proof.
  split; [vm_compute; reflexivity|].
  apply (@publisher_writes_its_copy master master master newer_batch []
           S5_signalled sth_B); vm_compute; reflexivity.
Defined.

(* ------------------------------------------------------------------ *)
(** ** The descent tries every size it passes *)

Lemma scan_skipped cfg N floor (d : CountMap) : forall seen s n,
  descending d -> Forall (fun b => 1 <= snd b) d ->
  0 <= seen -> seen + total (fun _ => true) d <= Int32.max_signed ->
  scan cfg N floor seen d = Some (s, n) ->
  forall k c, In (k, c) d -> s < k ->
              can_serve cfg N (seen + total (fun x => k <=? x) d) = false.
Proof.
  induction d as [|[k0 c0] d IH]; intros seen s n Hd Hpos Hseen Hmax; simpl;
    [discriminate|].
  apply StronglySorted_inv in Hd. destruct Hd as [Hd Hk0].
  inversion Hpos as [|? ? Hc0 Hpos']; subst. simpl in *.
  pose proof (total_nonneg (fun _ => true) Hpos') as Hrest.
  destruct (Z.geb_spec k0 floor) as [Hfloor|]; [|discriminate].
  rewrite wrap_in_range
    by (unfold Int32.min_signed, Int32.max_signed, Int32.half_modulus in *; lia).
  rewrite Forall_forall in Hk0.
  destruct (can_serve cfg N (seen + c0)) eqn:Hserve.
  - intros Heq k c Hin Hlt. injection Heq as <- <-.
    destruct Hin as [Heq|Hin]; [injection Heq as <- _; lia|].
    specialize (Hk0 _ Hin). simpl in Hk0. lia.
  - intros Hscan k c Hin Hlt. destruct Hin as [Heq|Hin].
    + injection Heq as <- <-. rewrite Z.leb_refl.
      rewrite total_below
        by (apply Forall_forall; intros b Hb; apply (Hk0 b Hb)).
      rewrite Z.add_0_r. exact Hserve.
    + pose proof (Hk0 _ Hin) as Hlt0. simpl in Hlt0.
      destruct (Z.leb_spec k k0); [|lia].
      rewrite Z.add_assoc.
      apply (IH (seen + c0) s n Hd Hpos') with (c := c); try assumption; lia.
Qed.

Lemma scan_none cfg N floor (d : CountMap) : forall seen,
  descending d -> Forall (fun b => 1 <= snd b) d ->
  0 <= seen -> seen + total (fun _ => true) d <= Int32.max_signed ->
  scan cfg N floor seen d = None ->
  forall k c, In (k, c) d -> floor <= k ->
              can_serve cfg N (seen + total (fun x => k <=? x) d) = false.
Proof.
  induction d as [|[k0 c0] d IH]; intros seen Hd Hpos Hseen Hmax; simpl;
    [intros _ k c []|].
  apply StronglySorted_inv in Hd. destruct Hd as [Hd Hk0].
  inversion Hpos as [|? ? Hc0 Hpos']; subst. simpl in *.
  pose proof (total_nonneg (fun _ => true) Hpos') as Hrest.
  rewrite Forall_forall in Hk0.
  destruct (Z.geb_spec k0 floor) as [Hfloor|Hbelow].
  - rewrite wrap_in_range
      by (unfold Int32.min_signed, Int32.max_signed, Int32.half_modulus in *;
          lia).
    destruct (can_serve cfg N (seen + c0)) eqn:Hserve; [discriminate|].
    intros Hscan k c Hin Hle. destruct Hin as [Heq|Hin].
    + injection Heq as <- <-. rewrite Z.leb_refl.
      rewrite total_below
        by (apply Forall_forall; intros b Hb; apply (Hk0 b Hb)).
      rewrite Z.add_0_r. exact Hserve.
    + pose proof (Hk0 _ Hin) as Hlt0. simpl in Hlt0.
      destruct (Z.leb_spec k k0); [|lia].
      rewrite Z.add_assoc.
      apply (IH (seen + c0) Hd Hpos') with (c := c); try assumption; lia.
  - intros _ k c Hin Hle. destruct Hin as [Heq|Hin].
    + injection Heq as <- _. lia.
    + specialize (Hk0 _ Hin). simpl in Hk0. lia.
Qed.

(** X9 -- The size at which [CalculateServingSTH] assigns is the largest
    one that can be served: it is not below the current calculated size
    (as the code holds it, in an [int]), and at every larger size that
    some peer has, the number of peers at or above that size fails the
    quorum test. *)
Theorem assigned_size_is_largest env w s w' :
  Z.of_nat (List.length (all_node_states_ (csc w))) <= Int32.max_signed ->
  assigns_at env w s w' ->
  current_tree_size (csc w) <= s /\
  (exists sth, peer_sth (all_node_states_ (csc w)) sth /\ tree_size sth = s) /\
  forall sth,
    peer_sth (all_node_states_ (csc w)) sth -> s < tree_size sth ->
    can_serve (cluster_config_ (csc w))
      (List.length (all_node_states_ (csc w)))
      (peers_at_least (tree_size sth) (all_node_states_ (csc w))) = false.
Proof.
  intros Hlen Hassign.
  destruct (assigns_at_inv Hassign) as (n & sth0 & Hcalc & _).
  destruct (calculation_serve _ Hlen Hcalc)
    as (sths & counts & _ & Hc & _ & _ & _ & _ & _ & Hscan & Hfloor & k & Hin).
  split; [exact Hfloor|]. split; [apply (@peer_of_counts_key _ _ _ _ Hc Hin)|].
  intros sth Hpeer Hlt.
  destruct (counts_key_of_peer Hc Hpeer) as [c Hkey].
  destruct Hc as (Hsorted & Hpos & _ & Htot).
  pose proof (peers_where_bounds (fun _ => true) (all_node_states_ (csc w))).
  assert (Hskip : can_serve (cluster_config_ (csc w))
                    (List.length (all_node_states_ (csc w)))
                    (0 + total (fun x => tree_size sth <=? x) (rev counts))
                  = false).
  { apply scan_skipped with (5 := Hscan) (c := c).
    - apply sorted_rev_descending, Hsorted.
    - apply Forall_rev, Hpos.
    - lia.
    - rewrite total_rev, Htot. lia.
    - apply in_rev in Hkey. exact Hkey.
    - exact Hlt. }
  rewrite total_rev, Htot in Hskip. exact Hskip.
Qed.

Lemma assigned_size_is_largest_witness :
  current_tree_size (csc S2_world) <= 7 /\
  (exists sth, peer_sth S1_nodes sth /\ tree_size sth = 7) /\
  forall sth,
    peer_sth S1_nodes sth -> 7 < tree_size sth ->
    can_serve config_3_half 4 (peers_at_least (tree_size sth) S1_nodes) = false.
Proof.
  apply (@assigned_size_is_largest master S2_world 7
           (final (CalculateServingSTH master S2_world))).
  - vm_compute. discriminate.
  - split; [reflexivity|]. exists 3. vm_compute. tauto.
Defined.

Lemma finds_no_quorum_inv env w w' :
  finds_no_quorum env w w' ->
  calculation (csc w) = CalcNoQuorum /\
  w' = mkWorld (csc w) (updater w) (Log WarnFailedToDetermine :: trace w).
Proof.
  intros [Hrun Hlog]. rewrite CalculateServingSTH_unfold in Hrun.
  destruct (calculation (csc w)) as [| |size n sth]; try discriminate.
  - injection Hrun as <-. split; reflexivity.
  - injection Hrun as <-. rewrite emitted_served in Hlog.
    destruct (election_is_master env); simpl in Hlog;
      repeat (destruct Hlog as [Heq|Hlog]; [discriminate|]); contradiction.
Qed.

(** X10 -- When [CalculateServingSTH] ends with the warning that no
    suitable serving STH was found, it has changed no field of the
    controller, and indeed no size qualified: at every size that some
    peer has and that is not below the current calculated size (as the
    code holds it, in an [int]), the number of peers at or above it fails
    the quorum test. *)
Theorem no_quorum_means_none_qualifies env w w' :
  Z.of_nat (List.length (all_node_states_ (csc w))) <= Int32.max_signed ->
  finds_no_quorum env w w' ->
  csc w' = csc w /\
  forall sth,
    peer_sth (all_node_states_ (csc w)) sth ->
    current_tree_size (csc w) <= tree_size sth ->
    can_serve (cluster_config_ (csc w))
      (List.length (all_node_states_ (csc w)))
      (peers_at_least (tree_size sth) (all_node_states_ (csc w))) = false.
Proof.
  intros Hlen Hnone. destruct (finds_no_quorum_inv Hnone) as [Hcalc ->].
  split; [reflexivity|]. intros sth Hpeer Hfloor.
  unfold calculation in Hcalc. unfold current_tree_size in Hfloor.
  destruct (tally (all_node_states_ (csc w)) ([], []))
    as [[sths counts]|] eqn:Ht; [|discriminate].
  destruct (0 <=? Int32.wrap _); [|discriminate].
  destruct (scan _ _ _ _ _) as [[size n]|] eqn:Hscan; [discriminate|].
  destruct (tally_maps _ Hlen Ht) as [Hc _].
  destruct (counts_key_of_peer Hc Hpeer) as [c Hkey].
  destruct Hc as (Hsorted & Hpos & _ & Htot).
  pose proof (peers_where_bounds (fun _ => true) (all_node_states_ (csc w))).
  assert (Hall : can_serve (cluster_config_ (csc w))
                   (List.length (all_node_states_ (csc w)))
                   (0 + total (fun x => tree_size sth <=? x) (rev counts))
                 = false).
  { apply scan_none with (5 := Hscan) (c := c).
    - apply sorted_rev_descending, Hsorted.
    - apply Forall_rev, Hpos.
    - lia.
    - rewrite total_rev, Htot. lia.
    - apply in_rev in Hkey. exact Hkey.
    - exact Hfloor. }
  rewrite total_rev, Htot in Hall. exact Hall.
Qed.

Lemma no_quorum_means_none_qualifies_witness :
  csc (final (CalculateServingSTH master S3_world)) = csc S3_world /\
  forall sth,
    peer_sth S3_nodes sth -> current_tree_size (csc S3_world) <= tree_size sth ->
    can_serve config_2_half 3 (peers_at_least (tree_size sth) S3_nodes) = false.
Proof.
  apply (@no_quorum_means_none_qualifies master S3_world
           (final (CalculateServingSTH master S3_world))).
  - vm_compute. discriminate.
  - split; [reflexivity|]. vm_compute. tauto.
Defined.

(* ------------------------------------------------------------------ *)
(** ** Edge cases of the calculation *)

(** X11 -- While no peer has an STH, and in particular while the
    controller knows no peer at all, [CalculateServingSTH] never assigns,
    whatever the configuration: the second loop has no size to visit (and
    never divides by the number of peers); no field of the controller
    changes. *)
Theorem no_peer_sth_nothing_served env w :
  Forall (fun node => newest_sth (snd node) = None) (all_node_states_ (csc w)) ->
  csc (final (CalculateServingSTH env w)) = csc w /\
  forall s w', ~ assigns_at env w s w'.
Proof.
  intros Hnodes.
  assert (Hcalc : calculation (csc w) = CalcNoQuorum \/
                  calculation (csc w) = CalcAbort).
  { unfold calculation. rewrite (tally_no_sth _ Hnodes).
    destruct (0 <=? Int32.wrap _); [left|right]; reflexivity. }
  split.
  - rewrite CalculateServingSTH_unfold.
    destruct Hcalc as [-> | ->]; reflexivity.
  - intros s w' Hassign.
    destruct (assigns_at_inv Hassign) as (n & sth & Hserve & _).
    destruct Hcalc; congruence.
Qed.

Lemma no_peer_sth_nothing_served_witness :
  csc (final (CalculateServingSTH master cold_world)) = csc cold_world /\
  forall s w', ~ assigns_at master cold_world s w'.
Proof.
  apply (@no_peer_sth_nothing_served master cold_world).
  vm_compute. repeat constructor.
Defined.

(** X12 -- Once the calculated tree size is between 2^31 and 2^32 - 1,
    every further run of [CalculateServingSTH] ends the process: the size
    is held in an [int], where it is negative, and [CHECK_LE(0,
    current_tree_size)] fails (if the first loop's check has not
    already); the world is left as it was. *)
Theorem calculated_size_beyond_int_crashes env w sth :
  calculated_serving_sth_ (csc w) = Some sth ->
  Int32.half_modulus <= tree_size sth < Int32.modulus ->
  CalculateServingSTH env w = Crashed w.
Proof.
  intros Hcalc Hrange. rewrite CalculateServingSTH_unfold.
  unfold calculation. rewrite Hcalc.
  destruct (tally (all_node_states_ (csc w)) ([], [])) as [[sths counts]|];
    [|reflexivity].
  assert (Hneg : Int32.wrap (tree_size sth) < 0).
  { unfold Int32.wrap, Int32.half_modulus, Int32.modulus in *.
    replace (tree_size sth + 2 ^ 31)
      with ((tree_size sth - 2 ^ 31) + 1 * 2 ^ 32) by lia.
    rewrite Z.mod_add by lia. rewrite Z.mod_small by lia. lia. }
  destruct (Z.leb_spec 0 (Int32.wrap (tree_size sth))); [lia|reflexivity].
Qed.

Lemma calculated_size_beyond_int_crashes_witness :
  calculated_serving_sth_ (csc beyond_int_world) = Some sth_2_31 /\
  CalculateServingSTH master beyond_int_world = Crashed beyond_int_world.
Proof.
  split; [vm_compute; reflexivity|].
  apply (@calculated_size_beyond_int_crashes master beyond_int_world sth_2_31).
  - vm_compute. reflexivity.
  - vm_compute. split; [discriminate|reflexivity].
Defined.

(* ------------------------------------------------------------------ *)
(** ** Ordered maps in general *)

Section OrdMapFacts.
Variables K V : Type.
Variable cmp : K -> K -> comparison.
Hypothesis cmp_refl : forall k, cmp k k = Eq.
Hypothesis cmp_eq : forall a b, cmp a b = Eq -> a = b.
Hypothesis cmp_gt : forall a b, cmp a b = Gt -> cmp b a = Lt.
Hypothesis cmp_trans : forall a b c, cmp a b = Lt -> cmp b c = Lt -> cmp a c = Lt.
Implicit Types (m : list (K * V)) (k : K) (f : option V -> V).

Lemma key_sorted_inv k v m :
  key_sorted cmp ((k, v) :: m) ->
  key_sorted cmp m /\ Forall (fun b => cmp k (fst b) = Lt) m.
Proof. intros H. apply StronglySorted_inv in H. exact H. Qed.

Lemma find_before k m :
  Forall (fun b => cmp k (fst b) = Lt) m -> find cmp k m = None.
Proof.
  induction 1 as [|[k' v] m Hk _ IH]; simpl; [reflexivity|].
  simpl in Hk. rewrite Hk. exact IH.
Qed.

Lemma before_trans k k' m :
  cmp k k' = Lt -> Forall (fun b => cmp k' (fst b) = Lt) m ->
  Forall (fun b => cmp k (fst b) = Lt) m.
Proof.
  intros Hk Hall. eapply Forall_impl; [|exact Hall].
  intros b Hb. eapply cmp_trans; eauto.
Qed.

Lemma find_put_same k f m :
  key_sorted cmp m ->
  find cmp k (upsert cmp k f m) = Some (f (find cmp k m)).
Proof.
  induction m as [|[k' v] m IH]; intros Hs; simpl.
  - rewrite cmp_refl. reflexivity.
  - apply key_sorted_inv in Hs. destruct Hs as [Hs Hall].
    destruct (cmp k k') eqn:Hk; simpl.
    + rewrite cmp_refl. reflexivity.
    + rewrite cmp_refl. rewrite (find_before (before_trans Hk Hall)).
      reflexivity.
    + rewrite Hk. apply IH, Hs.
Qed.

Lemma find_put_other k k0 f m :
  k0 <> k -> find cmp k0 (upsert cmp k f m) = find cmp k0 m.
Proof.
  intros Hne.
  assert (Hcmp : cmp k0 k <> Eq) by (intros H; apply Hne, cmp_eq, H).
  induction m as [|[k' v] m IH]; simpl.
  - destruct (cmp k0 k); [contradiction| |]; reflexivity.
  - destruct (cmp k k') eqn:Hk; simpl.
    + apply cmp_eq in Hk. subst k'.
      destruct (cmp k0 k); [contradiction| |]; reflexivity.
    + destruct (cmp k0 k); [contradiction| |]; reflexivity.
    + rewrite IH. reflexivity.
Qed.

Lemma put_after k0 k f m :
  cmp k0 k = Lt -> Forall (fun b => cmp k0 (fst b) = Lt) m ->
  Forall (fun b => cmp k0 (fst b) = Lt) (upsert cmp k f m).
Proof.
  intros Hk. induction 1 as [|[k' v] m Hk' Hall IH]; simpl.
  - constructor; [exact Hk|constructor].
  - destruct (cmp k k'); repeat constructor; auto.
Qed.

Lemma put_sorted k f m :
  key_sorted cmp m -> key_sorted cmp (upsert cmp k f m).
Proof.
  induction m as [|[k' v] m IH]; intros Hs; simpl.
  - repeat constructor.
  - pose proof (key_sorted_inv Hs) as [Hs' Hall].
    destruct (cmp k k') eqn:Hk.
    + apply cmp_eq in Hk. subst k'. constructor; assumption.
    + constructor; [exact Hs|].
      constructor; [exact Hk|apply (before_trans Hk Hall)].
    + constructor; [apply IH, Hs'|].
      apply put_after; [apply cmp_gt, Hk|exact Hall].
Qed.

Lemma erase_after k0 k m :
  Forall (fun b => cmp k0 (fst b) = Lt) m ->
  Forall (fun b => cmp k0 (fst b) = Lt) (snd (erase cmp k m)).
Proof. apply erase_Forall. Qed.

Lemma erase_sorted k m :
  key_sorted cmp m -> key_sorted cmp (snd (erase cmp k m)).
Proof.
  induction m as [|[k' v] m IH]; intros Hs; simpl; [constructor|].
  pose proof (key_sorted_inv Hs) as [Hs' Hall].
  pose proof (erase_after k Hall) as Hafter. specialize (IH Hs').
  destruct (cmp k k'); try exact Hs';
    destruct (erase cmp k m) as [n r]; simpl in *; constructor; assumption.
Qed.

Lemma find_erase_same k m :
  key_sorted cmp m -> find cmp k (snd (erase cmp k m)) = None.
Proof.
  induction m as [|[k' v] m IH]; intros Hs; simpl; [reflexivity|].
  pose proof (key_sorted_inv Hs) as [Hs' Hall]. specialize (IH Hs').
  destruct (cmp k k') eqn:Hk.
  - apply cmp_eq in Hk. subst k'. apply find_before, Hall.
  - destruct (erase cmp k m) as [n r]. simpl in *. rewrite Hk. exact IH.
  - destruct (erase cmp k m) as [n r]. simpl in *. rewrite Hk. exact IH.
Qed.

Lemma find_erase_other k k0 m :
  k0 <> k -> find cmp k0 (snd (erase cmp k m)) = find cmp k0 m.
Proof.
  intros Hne.
  assert (Hcmp : cmp k0 k <> Eq) by (intros H; apply Hne, cmp_eq, H).
  induction m as [|[k' v] m IH]; simpl; [reflexivity|].
  destruct (cmp k k') eqn:Hk.
  - apply cmp_eq in Hk. subst k'. simpl.
    destruct (cmp k0 k); [contradiction| |]; reflexivity.
  - destruct (erase cmp k m) as [n r]. simpl in *. rewrite IH. reflexivity.
  - destruct (erase cmp k m) as [n r]. simpl in *. rewrite IH. reflexivity.
Qed.

(** [erase] reports 1 exactly when the key was there, and then the map is
    one entry shorter; otherwise the map is as it was. *)
Lemma erase_count k m :
  match find cmp k m with
  | Some _ => fst (erase cmp k m) = 1 /\
              S (List.length (snd (erase cmp k m))) = List.length m
  | None => erase cmp k m = (0, m)
  end.
Proof.
  induction m as [|[k' v] m IH]; simpl; [reflexivity|].
  destruct (cmp k k'); simpl; [split; reflexivity| |];
    (destruct (find cmp k m); destruct (erase cmp k m) as [n r]; simpl in *;
     [destruct IH as [Hn Hl]; split; [exact Hn|rewrite Hl; reflexivity]
     |injection IH as Hn Hm; rewrite Hn, Hm; reflexivity]).
Qed.
End OrdMapFacts.

(* ------------------------------------------------------------------ *)
(** ** The order of node ids *)

Lemma ascii_compare_refl a : Ascii.compare a a = Eq.
Proof. unfold Ascii.compare. apply N.compare_refl. Qed.

Lemma string_compare_refl s : String.compare s s = Eq.
Proof.
  induction s as [|a s IH]; simpl; [reflexivity|].
  rewrite ascii_compare_refl. exact IH.
Qed.

Lemma string_compare_gt a b : String.compare a b = Gt -> String.compare b a = Lt.
Proof.
  intros H. rewrite String.compare_antisym, H. reflexivity.
Qed.

Lemma string_compare_trans a : forall b c,
  String.compare a b = Lt -> String.compare b c = Lt -> String.compare a c = Lt.
Proof.
  induction a as [|x a IH]; intros [|y b] [|z c]; simpl;
    try discriminate; try reflexivity.
  destruct (Ascii.compare x y) eqn:Hxy; try discriminate;
    destruct (Ascii.compare y z) eqn:Hyz; try discriminate; intros Hab Hbc.
  - apply Ascii.compare_eq_iff in Hxy. apply Ascii.compare_eq_iff in Hyz.
    subst. rewrite ascii_compare_refl. eapply IH; eauto.
  - apply Ascii.compare_eq_iff in Hxy. subst. rewrite Hyz. reflexivity.
  - apply Ascii.compare_eq_iff in Hyz. subst. rewrite Hxy. reflexivity.
  - unfold Ascii.compare in *. rewrite N.compare_lt_iff in *.
    assert (Hxz : (N_of_ascii x < N_of_ascii z)%N) by lia.
    apply N.compare_lt_iff in Hxz. rewrite Hxz. reflexivity.
Qed.

(** Discharges the order properties the general facts ask of
    [String.compare]. *)
Ltac string_order :=
  first [ exact string_compare_refl
        | exact String.compare_eq_iff
        | exact string_compare_gt
        | exact string_compare_trans
        | assumption ].

(* ------------------------------------------------------------------ *)
(** ** The peer map *)

Lemma node_map_ok_change may c0 c1 :
  changes may c0 c1 ->
  node_map_ok (all_node_states_ c0) -> node_map_ok (all_node_states_ c1).
Proof.
  apply (@changes_invariant may (fun c => node_map_ok (all_node_states_ c))).
  intros k c c' _ Hc [Hsorted Hkeys]. destruct Hc; simpl; try (split; assumption).
  - split.
    + apply put_sorted; string_order.
    + apply upsert_Forall; [exact Hkeys|reflexivity].
  - split.
    + apply erase_sorted; string_order.
    + apply erase_Forall, Hkeys.
Qed.

(** X13 -- In every state a run from the initial state leaves, the peer
    map is well formed: its entries are in strictly increasing order of
    node id, so no node has two entries and [all_node_states_.size()]
    counts the nodes, and each entry is the state of the node it is kept
    under. *)
Theorem peer_map_stays_well_formed calls :
  node_map_ok (all_node_states_ (csc (final (run calls initial_world)))).
Proof.
  apply (node_map_ok_change (run_changes calls initial_world)).
  split; constructor.
Qed.

Lemma apply_updates_cons update rest w :
  apply_updates (update :: rest) w
  = if exists_ update then
      apply_updates rest
        (mkWorld
           (set_all_node_states
              (upsert String.compare (node_id (entry update))
                 (fun _ => entry update) (all_node_states_ (csc w))) (csc w))
           (updater w) (trace w))
    else
      let w1 := mkWorld
                  (set_all_node_states
                     (snd (erase String.compare (node_id (entry update))
                             (all_node_states_ (csc w)))) (csc w))
                  (updater w) (trace w) in
      if fst (erase String.compare (node_id (entry update))
                (all_node_states_ (csc w))) =? 1
      then apply_updates rest w1
      else Crashed w1.
Proof.
  simpl. unfold bind at 1. destruct (exists_ update); [reflexivity|].
  unfold bind, get, modify, check.
  destruct (erase String.compare (node_id (entry update))
              (all_node_states_ (csc w))) as [erased m].
  simpl. destruct (erased =? 1); reflexivity.
Qed.

(** X14 -- A batch of peer updates that is applied without a failed
    [CHECK] leaves, for every node id, what the last update of the batch
    for that id says: its entry if the update says the node exists, no
    entry if it says the node is gone; a node the batch does not mention
    keeps the entry it had. *)
Theorem batch_last_update_wins updates : forall w w' id,
  key_sorted String.compare (all_node_states_ (csc w)) ->
  apply_updates updates w = Done tt w' ->
  find String.compare id (all_node_states_ (csc w'))
  = fold_left (update_lookup id) updates
      (find String.compare id (all_node_states_ (csc w))).
Proof.
  induction updates as [|update rest IH]; intros w w' id Hsorted.
  - simpl. intros Heq. injection Heq as <-. reflexivity.
  - rewrite apply_updates_cons. simpl fold_left. unfold update_lookup at 2.
    destruct (exists_ update).
    + intros Hrest. rewrite (IH _ _ id) with (2 := Hrest); simpl.
      * f_equal. destruct (String.eqb_spec (node_id (entry update)) id)
          as [<-|Hne].
        -- apply find_put_same; string_order.
        -- apply find_put_other; first [string_order|congruence].
      * apply put_sorted; string_order.
    + simpl. destruct (fst (erase _ _ _) =? 1); [|discriminate].
      intros Hrest. rewrite (IH _ _ id) with (2 := Hrest); simpl.
      * f_equal. destruct (String.eqb_spec (node_id (entry update)) id)
          as [<-|Hne].
        -- apply find_erase_same; string_order.
        -- apply find_erase_other; first [string_order|congruence].
      * apply erase_sorted; string_order.
Qed.

Lemma batch_last_update_wins_witness :
  find String.compare "C"%string
    (all_node_states_ (csc (final (apply_updates mixed_batch S1_calculated))))
  = Some (peer "C" (Some sth_C_last)) /\
  find String.compare "B"%string
    (all_node_states_ (csc (final (apply_updates mixed_batch S1_calculated))))
  = None.
Proof.
  assert (Hsorted : key_sorted String.compare
                      (all_node_states_ (csc S1_calculated)))
    by (vm_compute; repeat constructor).
  split.
  - apply (@batch_last_update_wins mixed_batch S1_calculated
             (final (apply_updates mixed_batch S1_calculated)) "C"%string Hsorted).
    reflexivity.
  - apply (@batch_last_update_wins mixed_batch S1_calculated
             (final (apply_updates mixed_batch S1_calculated)) "B"%string Hsorted).
    reflexivity.
Defined.

(** X15 -- A batch whose first update deletes a node that has no entry
    ends the process on [CHECK_EQ(1, erase)]: the rest of the batch is
    not applied, the serving STH is not recalculated, and the world is
    left as it was. *)
Theorem unknown_peer_removal_aborts env update rest w :
  exists_ update = false ->
  find String.compare (node_id (entry update)) (all_node_states_ (csc w)) = None ->
  OnClusterStateUpdated env (update :: rest) w = Crashed w.
Proof.
  intros Habsent Hfind. unfold OnClusterStateUpdated, bind.
  rewrite apply_updates_cons, Habsent.
  pose proof (erase_count String.compare (node_id (entry update))
                (all_node_states_ (csc w))) as Herase.
  rewrite Hfind in Herase. rewrite Herase. simpl.
  destruct w as [[l n c a s e u] pc tr]. reflexivity.
Qed.

Lemma unknown_peer_removal_aborts_witness :
  OnClusterStateUpdated master unknown_removal_batch S1_calculated
  = Crashed S1_calculated.
Proof.
  apply (@unknown_peer_removal_aborts master (absent (peer "Z" None))
           [present (peer "E" None)] S1_calculated); reflexivity.
Defined.

(* ------------------------------------------------------------------ *)
(** ** Which entry point writes which field *)

Lemma local_kept may c0 c1 :
  changes may c0 c1 -> may KLocal = false ->
  local_node_state_ c1 = local_node_state_ c0.
Proof.
  intros H Hmay. induction H as [|c c1 c2 k H IH Hk Hc]; [reflexivity|].
  rewrite <- IH. destruct Hc; try reflexivity; congruence.
Qed.

Lemma peers_kept may c0 c1 :
  changes may c0 c1 -> may KPeers = false ->
  all_node_states_ c1 = all_node_states_ c0.
Proof.
  intros H Hmay. induction H as [|c c1 c2 k H IH Hk Hc]; [reflexivity|].
  rewrite <- IH. destruct Hc; try reflexivity; congruence.
Qed.

Lemma config_kept may c0 c1 :
  changes may c0 c1 -> may KConfig = false ->
  cluster_config_ c1 = cluster_config_ c0.
Proof.
  intros H Hmay. induction H as [|c c1 c2 k H IH Hk Hc]; [reflexivity|].
  rewrite <- IH. destruct Hc; try reflexivity; congruence.
Qed.

Lemma actual_kept may c0 c1 :
  changes may c0 c1 -> may KActual = false ->
  actual_serving_sth_ c1 = actual_serving_sth_ c0.
Proof.
  intros H Hmay. induction H as [|c c1 c2 k H IH Hk Hc]; [reflexivity|].
  rewrite <- IH. destruct Hc; try reflexivity; congruence.
Qed.

Lemma calculated_kept may c0 c1 :
  changes may c0 c1 -> may KCalculated = false ->
  calculated_serving_sth_ c1 = calculated_serving_sth_ c0.
Proof.
  intros H Hmay. induction H as [|c c1 c2 k H IH Hk Hc]; [reflexivity|].
  rewrite <- IH. destruct Hc; try reflexivity; congruence.
Qed.

Lemma exiting_same may c0 c1 :
  changes may c0 c1 -> may KExiting = false -> exiting_ c1 = exiting_ c0.
Proof.
  intros H Hmay. induction H as [|c c1 c2 k H IH Hk Hc]; [reflexivity|].
  rewrite <- IH. destruct Hc; try reflexivity; congruence.
Qed.

Lemma not_signalled may c0 c1 :
  changes may c0 c1 -> may KSignal = false ->
  update_required_ c0 = false -> update_required_ c1 = false.
Proof.
  intros H Hmay H0. induction H as [|c c1 c2 k H IH Hk Hc]; [exact H0|].
  specialize (IH H0).
  destruct Hc; try exact IH; try reflexivity; congruence.
Qed.

(** X16 -- Each entry point writes its own fields only, whether it
    returns or dies.  The local node state is written by the three local
    mutators alone; the peer map by the peer-state watch; the
    configuration by the config watch; the actual serving STH by the
    serving-STH watch; [exiting_] by the destructor.  The calculated
    serving STH is written, and an update signalled, by the peer-state
    and config watches alone: a new serving STH, new local progress and
    the publisher's steps never recalculate. *)
Theorem entry_points_write_their_own_fields env call w :
  match call with
  | CallNewTreeHead _ | CallContiguousTreeSizeUpdated _
  | CallSetNodeHostPort _ _ => True
  | _ => local_node_state_ (csc (final (run_call env call w)))
         = local_node_state_ (csc w)
  end /\
  match call with
  | CallOnClusterStateUpdated _ => True
  | _ => all_node_states_ (csc (final (run_call env call w)))
         = all_node_states_ (csc w)
  end /\
  match call with
  | CallOnClusterConfigUpdated _ => True
  | _ => cluster_config_ (csc (final (run_call env call w)))
         = cluster_config_ (csc w)
  end /\
  match call with
  | CallOnServingSthUpdated _ => True
  | _ => actual_serving_sth_ (csc (final (run_call env call w)))
         = actual_serving_sth_ (csc w)
  end /\
  match call with
  | CallDestructor => True
  | _ => exiting_ (csc (final (run_call env call w))) = exiting_ (csc w)
  end /\
  match call with
  | CallOnClusterStateUpdated _ | CallOnClusterConfigUpdated _ => True
  | _ => calculated_serving_sth_ (csc (final (run_call env call w)))
         = calculated_serving_sth_ (csc w) /\
         (update_required_ (csc w) = false ->
          update_required_ (csc (final (run_call env call w))) = false)
  end.
Proof.
  pose proof (run_call_changes env call w) as H.
  split; [|split; [|split; [|split; [|split]]]];
    destruct call; try exact I;
    first [ exact (local_kept H eq_refl)
          | exact (peers_kept H eq_refl)
          | exact (config_kept H eq_refl)
          | exact (actual_kept H eq_refl)
          | exact (exiting_same H eq_refl)
          | split; [exact (calculated_kept H eq_refl)
                   |exact (not_signalled H eq_refl)] ].
Qed.

(* ------------------------------------------------------------------ *)
(** ** The configuration in use *)

Lemma run_call_config env call w :
  cluster_config_ (csc (final (run_call env call w)))
  = config_step (cluster_config_ (csc w)) (env, call).
Proof.
  unfold config_step. simpl snd.
  destruct call;
    match goal with
    | |- cluster_config_ (csc (final (run_call ?e ?c ?w0))) = _ =>
        try exact (@config_kept (may_change e c) _ _
                     (run_call_changes e c w0) eq_refl)
    end.
  simpl run_call. unfold OnClusterConfigUpdated.
  destruct (exists_ update); [|reflexivity].
  unfold bind at 1, modify. unfold bind at 1, emit.
  apply (@config_kept calculation_kinds
           (set_cluster_config (entry update) (csc w))); [|reflexivity].
  apply (@reached_CalculateServingSTH calculation_kinds
           (set_cluster_config (entry update) (csc w)) env);
    [reflexivity|reflexivity|constructor].
Qed.

(** X17 -- After a run that returns, the configuration in use is the one
    of the last config update that carried a configuration; updates
    reporting that none exists, and every other call, leave it as it
    is. *)
Theorem config_is_last_received calls : forall w w',
  run calls w = Done tt w' ->
  cluster_config_ (csc w') = config_after calls (cluster_config_ (csc w)).
Proof.
  induction calls as [|[env call] rest IH]; intros w w' Hrun.
  - simpl in Hrun. injection Hrun as <-. reflexivity.
  - apply run_Done_cons in Hrun. destruct Hrun as (w1 & Hcall & Hrest).
    unfold config_after. simpl fold_left.
    rewrite <- (run_call_config env call w), Hcall. simpl.
    apply IH, Hrest.
Qed.

Lemma config_is_last_received_witness :
  cluster_config_ (csc (final (run config_calls initial_world)))
  = config_3_half.
Proof.
  apply (@config_is_last_received config_calls initial_world
           (final (run config_calls initial_world))).
  vm_compute. reflexivity.
Defined.

(* ------------------------------------------------------------------ *)
(** ** Which entry point calls the election *)

Lemma filter_election_gate c :
  filter election_call (gate_events c) = [gate_decision c].
Proof.
  unfold gate_events, gate_decision, may_participate.
  destruct (actual_serving_sth_ c) as [sth|]; [|reflexivity].
  destruct (Z.gtb_spec (tree_size sth)
              (contiguous_tree_size (local_node_state_ c)));
    destruct (Z.leb_spec (tree_size sth)
                (contiguous_tree_size (local_node_state_ c)));
    try lia; reflexivity.
Qed.

Lemma filter_election_push env c :
  filter election_call (push_events env c) = [gate_decision c].
Proof.
  unfold push_events. rewrite filter_app. simpl.
  rewrite filter_election_gate. destruct (store_status_ok env); reflexivity.
Qed.

Lemma gate_decision_start c :
  gate_decision c = StartElection <->
  exists sth, actual_serving_sth_ c = Some sth /\
              tree_size sth <= contiguous_tree_size (local_node_state_ c).
Proof.
  unfold gate_decision, may_participate.
  destruct (actual_serving_sth_ c) as [sth|].
  - destruct (Z.leb_spec (tree_size sth)
                (contiguous_tree_size (local_node_state_ c))); split.
    + intros _. exists sth. split; [reflexivity|assumption].
    + reflexivity.
    + discriminate.
    + intros (sth' & Heq & Hle). injection Heq as <-. lia.
  - split; [discriminate|]. intros (sth' & Heq & _). discriminate.
Qed.

(** X3 -- Contract of [ContiguousTreeSizeUpdated].  A negative size, or one
    below the recorded contiguous tree size, ends the process with the
    world as it was.  Any other size is recorded, the node state with it
    is handed to the store, and the election gate is run on the new
    state: the node is put into the election exactly when a serving STH
    is known whose tree size is at most the new contiguous size. *)
Theorem ContiguousTreeSizeUpdated_contract env n w :
  if (0 <=? n) && (contiguous_tree_size (local_node_state_ (csc w)) <=? n)
  then exists w',
      ContiguousTreeSizeUpdated env n w = Done tt w' /\
      csc w' = set_local_node_state
                 (with_contiguous_tree_size n (local_node_state_ (csc w)))
                 (csc w) /\
      contiguous_tree_size (local_node_state_ (csc w')) = n /\
      emitted w w' = push_events env (csc w') /\
      (In StartElection (emitted w w') <->
       exists sth, actual_serving_sth_ (csc w) = Some sth /\ tree_size sth <= n)
  else ContiguousTreeSizeUpdated env n w = Crashed w.
Proof.
  rewrite ContiguousTreeSizeUpdated_unfold.
  destruct ((0 <=? n) &&
            (contiguous_tree_size (local_node_state_ (csc w)) <=? n));
    [|reflexivity].
  eexists. split; [reflexivity|]. split; [reflexivity|].
  split; [reflexivity|]. rewrite emitted_app. split; [reflexivity|].
  set (c := set_local_node_state _ (csc w)).
  pose proof (gate_decision_start c) as Hstart. simpl in Hstart.
  rewrite <- Hstart. clear Hstart.
  pose proof (filter_election_push env c) as Hf.
  split.
  - intros Hin.
    assert (Hin' : In StartElection (filter election_call (push_events env c)))
      by (apply filter_In; split; [exact Hin|reflexivity]).
    rewrite Hf in Hin'. destruct Hin' as [Heq|[]]. exact Heq.
  - intros Heq.
    assert (Hin' : In StartElection (filter election_call (push_events env c)))
      by (rewrite Hf, Heq; left; reflexivity).
    apply filter_In in Hin'. apply Hin'.
Qed.

Lemma OnServingSthUpdated_unfold update w :
  OnServingSthUpdated update w
  = let c := set_actual_serving_sth
               (if exists_ update then Some (entry update) else None) (csc w) in
    Done tt
      (mkWorld c (updater w)
         (gate_events c
            ++ Log (if exists_ update
                    then InfoReceivedServingSTH (entry update)
                    else WarnNoServingSTH) :: trace w)).
Proof.
  unfold OnServingSthUpdated. unfold bind at 1.
  destruct (exists_ update); unfold bind, modify, emit;
    rewrite DetermineElectionParticipation_unfold; reflexivity.
Qed.

Lemma apply_updates_trace updates : forall w,
  trace (final (apply_updates updates w)) = trace w.
Proof.
  induction updates as [|update rest IH]; intros w; [reflexivity|].
  rewrite apply_updates_cons. destruct (exists_ update); [rewrite IH; reflexivity|].
  simpl. destruct (fst (erase _ _ _) =? 1); [rewrite IH|]; reflexivity.
Qed.

Lemma CalculateServingSTH_election env w :
  filter election_call (trace (final (CalculateServingSTH env w)))
  = filter election_call (trace w).
Proof.
  rewrite CalculateServingSTH_unfold.
  destruct (calculation (csc w)); try reflexivity.
  unfold served. destruct (election_is_master env); reflexivity.
Qed.

(** X18 -- The election hears from the controller through the gate alone.
    [NewTreeHead], [ContiguousTreeSizeUpdated], [SetNodeHostPort] and the
    serving-STH watch, when they return, make exactly one election call,
    the gate's decision on the state they leave; when they die they make
    none.  The peer-state watch, the config watch, the publisher thread
    and the destructor never call [StartElection] or [StopElection]. *)
Theorem election_calls_by_entry_point env call w :
  filter election_call (trace (final (run_call env call w)))
  = (if reevaluates_gate call && returned (run_call env call w)
     then [gate_decision (csc (final (run_call env call w)))]
     else [])
      ++ filter election_call (trace w).
Proof.
  destruct call; simpl run_call; simpl reevaluates_gate.
  - rewrite NewTreeHead_unfold.
    destruct (older_than_newest sth (csc w)); [reflexivity|].
    simpl. rewrite filter_app, filter_election_push. reflexivity.
  - rewrite ContiguousTreeSizeUpdated_unfold.
    destruct ((0 <=? new_contiguous_tree_size) && _); [|reflexivity].
    simpl. rewrite filter_app, filter_election_push. reflexivity.
  - rewrite SetNodeHostPort_unfold.
    simpl. rewrite filter_app, filter_election_push. reflexivity.
  - unfold OnClusterStateUpdated, bind.
    pose proof (apply_updates_trace updates w) as Htr.
    destruct (apply_updates updates w) as [[] w1|w1]; simpl in *.
    + rewrite CalculateServingSTH_election, Htr. reflexivity.
    + rewrite Htr. reflexivity.
  - unfold OnClusterConfigUpdated.
    destruct (exists_ update); [|reflexivity].
    unfold bind at 1, modify. unfold bind at 1, emit.
    rewrite CalculateServingSTH_election. reflexivity.
  - rewrite OnServingSthUpdated_unfold.
    simpl. rewrite filter_app, filter_election_gate. reflexivity.
  - unfold ClusterServingSTHUpdater_step.
    destruct (updater w); try reflexivity.
    destruct (update_required_ (csc w) || exiting_ (csc w)); [|reflexivity].
    destruct (exiting_ (csc w)); [reflexivity|].
    unfold bind, check. destruct (update_required_ (csc w)); [|reflexivity].
    destruct (calculated_serving_sth_ (csc w)); reflexivity.
  - reflexivity.
Qed.

(* ------------------------------------------------------------------ *)
(** ** Store failures *)

Lemma filter_warning_push master ok1 ok2 c :
  filter not_store_warning (push_events (mkEnv master ok1) c)
  = filter not_store_warning (push_events (mkEnv master ok2) c).
Proof.
  unfold push_events. rewrite !filter_app.
  destruct ok1, ok2; reflexivity.
Qed.

(** X19 -- A failed write of the node state to the store changes nothing
    but the log: for every entry point, the controller's fields, the
    publisher's position, whether the call returns, and every event
    except the warning about the store are the same whether
    [SetClusterNodeState] reports success or failure. *)
Theorem store_failure_only_logged master ok1 ok2 call w :
  csc (final (run_call (mkEnv master ok1) call w))
  = csc (final (run_call (mkEnv master ok2) call w)) /\
  updater (final (run_call (mkEnv master ok1) call w))
  = updater (final (run_call (mkEnv master ok2) call w)) /\
  returned (run_call (mkEnv master ok1) call w)
  = returned (run_call (mkEnv master ok2) call w) /\
  filter not_store_warning (trace (final (run_call (mkEnv master ok1) call w)))
  = filter not_store_warning (trace (final (run_call (mkEnv master ok2) call w))).
Proof.
  destruct call; simpl run_call.
  - rewrite !NewTreeHead_unfold.
    destruct (older_than_newest sth (csc w)); [repeat split|].
    simpl. repeat split. rewrite !filter_app.
    rewrite (filter_warning_push master ok1 ok2). reflexivity.
  - rewrite !ContiguousTreeSizeUpdated_unfold.
    destruct ((0 <=? new_contiguous_tree_size) && _); [|repeat split].
    simpl. repeat split. rewrite !filter_app.
    rewrite (filter_warning_push master ok1 ok2). reflexivity.
  - rewrite !SetNodeHostPort_unfold.
    simpl. repeat split. rewrite !filter_app.
    rewrite (filter_warning_push master ok1 ok2). reflexivity.
  - repeat split.
  - repeat split.
  - repeat split.
  - repeat split.
  - repeat split.
Qed.

(* ------------------------------------------------------------------ *)
(** ** The calculated size over a run of realistic STHs *)

Lemma realistic_inv sth :
  realistic sth = true ->
  (0 < timestamp sth)%N /\ 0 <= tree_size sth <= Int32.max_signed.
Proof.
  unfold realistic. intros H.
  apply andb_prop in H. destruct H as [H Hmax].
  apply andb_prop in H. destruct H as [Hts Hmin].
  apply N.ltb_lt in Hts. apply Z.leb_le in Hmin. apply Z.leb_le in Hmax.
  split; [exact Hts|split; assumption].
Qed.

Lemma In_upsert K V (cmp : K -> K -> comparison) k v (x : K * V) m :
  In x (upsert cmp k (fun _ => v) m) -> x = (k, v) \/ In x m.
Proof.
  induction m as [|[k' v'] m IH]; simpl.
  - intros [H|[]]; left; symmetry; exact H.
  - destruct (cmp k k'); simpl.
    + intros [H|H]; [left; symmetry; exact H|right; right; exact H].
    + intros [H|H]; [left; symmetry; exact H|right; exact H].
    + intros [H|H]; [right; left; exact H|].
      destruct (IH H) as [Hx|Hx]; [left; exact Hx|right; right; exact Hx].
Qed.

Lemma In_erase K V (cmp : K -> K -> comparison) k (x : K * V) m :
  In x (snd (erase cmp k m)) -> In x m.
Proof.
  induction m as [|[k' v'] m IH]; simpl; [tauto|].
  destruct (cmp k k'); simpl; try (intros H; right; exact H);
    destruct (erase cmp k m) as [n r]; simpl in *;
    (intros [H|H]; [left; exact H|right; apply IH, H]).
Qed.

Lemma length_upsert K V (cmp : K -> K -> comparison) k f (m : list (K * V)) :
  (List.length (upsert cmp k f m) <= S (List.length m))%nat.
Proof.
  induction m as [|[k' v'] m IH]; simpl; [lia|].
  destruct (cmp k k'); simpl; lia.
Qed.

Lemma length_erase K V (cmp : K -> K -> comparison) k (m : list (K * V)) :
  (List.length (snd (erase cmp k m)) <= List.length m)%nat.
Proof.
  induction m as [|[k' v'] m IH]; simpl; [lia|].
  destruct (cmp k k'); simpl; try lia;
    destruct (erase cmp k m) as [n r]; simpl in *; lia.
Qed.

(** What a batch of realistic updates leaves in the peer map. *)
Lemma apply_updates_realistic updates : forall w,
  forallb update_realistic updates = true ->
  (forall sth, peer_sth (all_node_states_ (csc w)) sth -> realistic sth = true) ->
  (forall sth, peer_sth (all_node_states_ (csc (final (apply_updates updates w))))
                 sth -> realistic sth = true) /\
  (List.length (all_node_states_ (csc (final (apply_updates updates w))))
   <= List.length (all_node_states_ (csc w)) + List.length updates)%nat.
Proof.
  induction updates as [|update rest IH]; intros w Hall Hpeers.
  - simpl. split; [exact Hpeers|lia].
  - simpl in Hall. apply andb_prop in Hall. destruct Hall as [Hupdate Hrest].
    rewrite apply_updates_cons. unfold update_realistic in Hupdate.
    destruct (exists_ update); simpl in Hupdate.
    + match goal with
      | |- context [apply_updates rest ?w1] =>
          destruct (IH w1 Hrest) as [Hp Hl]
      end.
      * simpl. intros sth (id & node & Hin & Hsth).
        apply In_upsert in Hin. destruct Hin as [Heq|Hin].
        -- injection Heq as _ ->. rewrite Hsth in Hupdate. exact Hupdate.
        -- apply Hpeers. exists id, node. split; assumption.
      * split; [exact Hp|]. simpl in Hl.
        pose proof (length_upsert String.compare (node_id (entry update))
                      (fun _ => entry update) (all_node_states_ (csc w))).
        simpl. lia.
    + simpl.
      assert (Hp1 : forall sth,
                 peer_sth (snd (erase String.compare (node_id (entry update))
                                  (all_node_states_ (csc w)))) sth ->
                 realistic sth = true).
      { intros sth (id & node & Hin & Hsth). apply In_erase in Hin.
        apply Hpeers. exists id, node. split; assumption. }
      pose proof (length_erase String.compare (node_id (entry update))
                    (all_node_states_ (csc w))) as Hl1.
      destruct (fst (erase _ _ _) =? 1).
      * match goal with
        | |- context [apply_updates rest ?w1] =>
            destruct (IH w1 Hrest Hp1) as [Hp Hl]
        end.
        split; [exact Hp|]. simpl in Hl. lia.
      * simpl. split; [exact Hp1|lia].
Qed.

(** One calculation on a steady state. *)
Lemma steady_CalculateServingSTH env w :
  steady (csc w) ->
  Z.of_nat (List.length (all_node_states_ (csc w))) <= Int32.max_signed ->
  steady (csc (final (CalculateServingSTH env w))) /\
  size_kept (csc w) (csc (final (CalculateServingSTH env w))) /\
  all_node_states_ (csc (final (CalculateServingSTH env w)))
  = all_node_states_ (csc w).
Proof.
  intros [Hpeers Hcalculated] Hlen. rewrite CalculateServingSTH_unfold.
  destruct (calculation (csc w)) as [| |s n sth] eqn:Hcalc;
    try (split; [split; assumption|]; split; [|reflexivity];
         intros before Hb; exists before; split; [exact Hb|lia]).
  destruct (calculation_serve _ Hlen Hcalc)
    as (sths & counts & _ & Hc & Hs & -> & _ & _ & _ & _ & Hfloor & k & Hin).
  destruct (@peer_of_counts_key _ _ _ _ Hc Hin) as (sth & Hpeer & <-).
  destruct (@realistic_inv _ (Hpeers _ Hpeer)) as [Hts Hrange].
  destruct (sth_at_peer Hs Hpeer Hts) as [Hbest Hsize].
  destruct (served_fields env (tree_size sth) n (sth_at sths (tree_size sth)) w)
    as (Hnodes & _ & Hnew & _).
  simpl final. split; [split|split; [|exact Hnodes]].
  - rewrite Hnodes. exact Hpeers.
  - rewrite Hnew. intros sth' Heq. injection Heq as <-. apply Hpeers, Hbest.
  - intros before Hb. rewrite Hb in Hfloor.
    destruct (@realistic_inv _ (Hcalculated _ Hb)) as [_ Hbrange].
    rewrite wrap_in_range in Hfloor
      by (unfold Int32.min_signed, Int32.max_signed, Int32.half_modulus in *;
          lia).
    exists (sth_at sths (tree_size sth)). split; [exact Hnew|lia].
Qed.

Lemma size_kept_refl c c' :
  calculated_serving_sth_ c' = calculated_serving_sth_ c -> size_kept c c'.
Proof.
  intros Heq before Hb. exists before. split; [congruence|lia].
Qed.

Lemma size_kept_trans c1 c2 c3 :
  size_kept c1 c2 -> size_kept c2 c3 -> size_kept c1 c3.
Proof.
  intros H12 H23 before Hb.
  destruct (H12 _ Hb) as (mid & Hm & Hle1).
  destruct (H23 _ Hm) as (after & Ha & Hle2).
  exists after. split; [exact Ha|lia].
Qed.

Lemma steady_same c c' :
  all_node_states_ c' = all_node_states_ c ->
  calculated_serving_sth_ c' = calculated_serving_sth_ c ->
  steady c -> steady c'.
Proof. unfold steady. intros -> ->. tauto. Qed.

Lemma steady_run_call env call w :
  call_realistic (env, call) = true ->
  steady (csc w) ->
  Z.of_nat (List.length (all_node_states_ (csc w)) + updates_in (env, call))
  <= Int32.max_signed ->
  steady (csc (final (run_call env call w))) /\
  size_kept (csc w) (csc (final (run_call env call w))) /\
  (List.length (all_node_states_ (csc (final (run_call env call w))))
   <= List.length (all_node_states_ (csc w)) + updates_in (env, call))%nat.
Proof.
  intros Hcall Hsteady Hlen.
  pose proof (run_call_changes env call w) as Hchanges.
  destruct call as [sth|n|host port|updates|update|update| |];
    try (pose proof (peers_kept Hchanges eq_refl) as Hp;
         pose proof (calculated_kept Hchanges eq_refl) as Hc;
         split; [exact (@steady_same _ _ Hp Hc Hsteady)|];
         split; [exact (@size_kept_refl _ _ Hc)|rewrite Hp; lia]).
  - (* peer-state watch *)
    unfold call_realistic, updates_in in *. simpl snd in *.
    simpl run_call. unfold OnClusterStateUpdated, bind.
    destruct (apply_updates_realistic updates w Hcall (proj1 Hsteady))
      as [Hp Hl].
    pose proof (@apply_updates_frame updates (cluster_config_ (csc w))
                  (calculated_serving_sth_ (csc w)) w (conj eq_refl eq_refl))
      as [_ Hc].
    assert (Hsteady1 : steady (csc (final (apply_updates updates w)))).
    { split; [exact Hp|]. rewrite Hc. exact (proj2 Hsteady). }
    destruct (apply_updates updates w) as [[] w1|w1]; simpl in *.
    + destruct (@steady_CalculateServingSTH env w1 Hsteady1)
        as (Hs & Hk & Hsame); [lia|].
      split; [exact Hs|]. split.
      * apply size_kept_trans with (c2 := csc w1);
          [apply size_kept_refl, Hc|exact Hk].
      * rewrite Hsame. exact Hl.
    + split; [exact Hsteady1|]. split; [apply size_kept_refl, Hc|exact Hl].
  - (* config watch *)
    pose proof (peers_kept Hchanges eq_refl) as Hp.
    split; [|split; [|rewrite Hp; lia]].
    + simpl run_call. unfold OnClusterConfigUpdated.
      destruct (exists_ update); [|exact Hsteady].
      unfold bind at 1, modify. unfold bind at 1, emit.
      apply steady_CalculateServingSTH; [exact Hsteady|].
      simpl. unfold updates_in in Hlen. simpl in Hlen. lia.
    + simpl run_call. unfold OnClusterConfigUpdated.
      destruct (exists_ update); [|apply size_kept_refl; reflexivity].
      unfold bind at 1, modify. unfold bind at 1, emit.
      match goal with
      | |- size_kept _ (csc (final (CalculateServingSTH env ?w1))) =>
          apply size_kept_trans with (c2 := csc w1);
          [apply size_kept_refl; reflexivity|
           apply steady_CalculateServingSTH; [exact Hsteady|]]
      end.
      simpl. unfold updates_in in Hlen. simpl in Hlen. lia.
Qed.

(** X20 -- Over a run of realistic STHs the calculated tree size never
    decreases.  If every peer STH the controller holds or receives has a
    non-zero timestamp and a tree size that fits an [int], as has the
    calculated STH, and the peers stay few enough to be counted in an
    [int], then whatever ends the run, a calculated STH is still there
    and its tree size is not below the one the run started with. *)
Theorem calculated_size_never_decreases calls : forall w,
  forallb call_realistic calls = true ->
  steady (csc w) ->
  Z.of_nat (List.length (all_node_states_ (csc w)) + updates_of calls)
  <= Int32.max_signed ->
  steady (csc (final (run calls w))) /\
  size_kept (csc w) (csc (final (run calls w))).
Proof.
  induction calls as [|[env call] rest IH]; intros w Hall Hsteady Hlen.
  - simpl. split; [exact Hsteady|apply size_kept_refl; reflexivity].
  - simpl in Hall. apply andb_prop in Hall. destruct Hall as [Hcall Hrest].
    simpl updates_of in Hlen.
    destruct (@steady_run_call env call w Hcall Hsteady) as (Hs1 & Hk1 & Hl1);
      [lia|].
    simpl run. unfold bind.
    destruct (run_call env call w) as [[] w1|w1]; simpl in *.
    + destruct (IH w1 Hrest Hs1) as [Hs2 Hk2]; [lia|].
      split; [exact Hs2|]. apply size_kept_trans with (c2 := csc w1); assumption.
    + split; assumption.
Qed.

Lemma calculated_size_never_decreases_witness :
  calculated_serving_sth_ (csc S1_calculated) = Some sth_B /\
  calculated_serving_sth_ (csc (final (run churn_calls S1_calculated)))
  = Some sth_newer /\
  steady (csc (final (run churn_calls S1_calculated))) /\
  size_kept (csc S1_calculated) (csc (final (run churn_calls S1_calculated))).
Proof.
  split; [vm_compute; reflexivity|]. split; [vm_compute; reflexivity|].
  apply (@calculated_size_never_decreases churn_calls S1_calculated).
  - vm_compute. reflexivity.
  - split.
    + intros sth (id & node & Hin & Hsth). vm_compute in Hin.
      repeat (destruct Hin as [Heq|Hin];
              [injection Heq as <- <-; simpl in Hsth;
               try discriminate; injection Hsth as <-; reflexivity|]).
      destruct Hin.
    + intros sth Hsth. vm_compute in Hsth. injection Hsth as <-. reflexivity.
  - vm_compute. discriminate.
Defined.

(* ------------------------------------------------------------------ *)
(** ** Which STH is assigned *)

(** X21 -- The STH that [CalculateServingSTH] assigns at size [s] is the
    newest one of that size: if some peer at size [s] has a non-zero
    timestamp, the assigned STH is the STH of a peer, has tree size [s]
    and a non-zero timestamp, and no peer STH of size [s] has a larger
    timestamp. *)
Theorem assigned_sth_is_newest_at_size env w s w' sth0 :
  Z.of_nat (List.length (all_node_states_ (csc w))) <= Int32.max_signed ->
  assigns_at env w s w' ->
  peer_sth (all_node_states_ (csc w)) sth0 ->
  tree_size sth0 = s ->
  (0 < timestamp sth0)%N ->
  exists best,
    calculated_serving_sth_ (csc w') = Some best /\
    peer_sth (all_node_states_ (csc w)) best /\
    tree_size best = s /\
    (0 < timestamp best)%N /\
    forall sth,
      peer_sth (all_node_states_ (csc w)) sth -> tree_size sth = s ->
      (timestamp sth <= timestamp best)%N.
Proof.
  intros Hlen Hassign Hpeer Hsize Hts.
  destruct (assigns_at_inv Hassign) as (n & sth & Hcalc & ->).
  destruct (calculation_serve _ Hlen Hcalc)
    as (sths & counts & _ & _ & Hs & -> & _).
  destruct (sth_at_peer Hs Hpeer Hts) as [Hbest Hbsize].
  rewrite Hsize in *.
  exists (sth_at sths s).
  destruct (served_fields env s n (sth_at sths s) w) as (_ & _ & Hnew & _).
  split; [exact Hnew|]. split; [exact Hbest|]. split; [exact Hbsize|].
  destruct Hs as (_ & _ & Hmax). split.
  - pose proof (Hmax _ Hpeer) as Hle. rewrite Hsize in Hle. lia.
  - intros sth' Hp' Hs'. pose proof (Hmax _ Hp') as Hle.
    rewrite Hs' in Hle. exact Hle.
Qed.

Lemma assigned_sth_is_newest_at_size_witness :
  exists best,
    calculated_serving_sth_
      (csc (final (CalculateServingSTH follower S1_calculated))) = Some best /\
    peer_sth (all_node_states_ (csc S1_calculated)) best /\
    tree_size best = 10 /\
    (0 < timestamp best)%N /\
    forall sth,
      peer_sth (all_node_states_ (csc S1_calculated)) sth ->
      tree_size sth = 10 ->
      (timestamp sth <= timestamp best)%N.
Proof.
  apply (@assigned_sth_is_newest_at_size follower S1_calculated 10
           (final (CalculateServingSTH follower S1_calculated)) sth_A).
  - vm_compute. discriminate.
  - split; [vm_compute; reflexivity|]. exists 2. vm_compute. tauto.
  - exists "A"%string, (peer "A" (Some sth_A)). split; [|reflexivity].
    vm_compute. tauto.
  - reflexivity.
  - reflexivity.
Defined.
